(** * Younger: the network-extraction engine

    A shallow embedding of [youngbench/dataset/utils/extraction.py]:
    [extract_network], [extract_networks], [extract_from_fp] and
    [extract_from_gp], together with the parts of onnx and networkx they
    rely on, and the properties of the engine stated in the specification. *)

From stdpp Require Import gmap strings list fin_maps pretty.

Open Scope string_scope.
Open Scope list_scope.

Set Warnings "-register-all,-clear-no-such-hyp".

(** ** Errors and results

    The Python exceptions the engine can raise, and the result of a call
    that either returns a value or raises one of them. *)

Inductive Error : Type :=
| AssertionError_not_DAG      (* the assert on networkx.is_directed_acyclic_graph *)
| AssertionError_not_Network  (* the assert isinstance(fp_network, Network) *)
| IndexError                  (* a list subscript out of range *)
| KeyError                    (* a missing dict key *)
| NameError                   (* a name that is bound nowhere *)
| SchemaError                 (* onnx.defs.get_schema finds no schema *)
| RecursionError.             (* the interpreter's recursion limit *)

Inductive Result (A : Type) : Type :=
| Ok (a : A)
| Err (e : Error).
Arguments Ok {A} a.
Arguments Err {A} e.

#[global] Instance Result_ret : MRet Result := fun A a => Ok a.
#[global] Instance Result_bind : MBind Result := fun A B f m =>
  match m with
  | Ok a => f a
  | Err e => Err e
  end.

#[global] Instance Error_eq_dec : EqDecision Error.
Proof. solve_decision. Defined.

(** [for x in l: s = body(x, s)], stopping at the first exception. *)
Fixpoint for_each {A St : Type} (body : A → St → Result St) (l : list A) (s : St)
  : Result St :=
  match l with
  | [] => Ok s
  | x :: l' => s' ← body x s; for_each body l' s'
  end.

(** [for index, x in enumerate(l): s = body(index, x, s)], counting from
    [start]. *)
Fixpoint for_enumerate {A St : Type} (body : nat → A → St → Result St)
    (start : nat) (l : list A) (s : St) : Result St :=
  match l with
  | [] => Ok s
  | x :: l' => s' ← body start x s; for_enumerate body (S start) l' s'
  end.

(** Python's [l[i]] for a list: negative indices count from the end, and
    anything outside [-len(l) .. len(l)-1] raises IndexError. *)
Definition py_index {A : Type} (l : list A) (i : Z) : Result A :=
  let n := Z.of_nat (length l) in
  let j := if decide (i < 0)%Z then (n + i)%Z else i in
  if decide (0 ≤ j < n)%Z then
    match l !! Z.to_nat j with
    | Some x => Ok x
    | None => Err IndexError
    end
  else Err IndexError.

(** ** The data model *)

(** What [json_format.MessageToDict] returns. *)
Inductive json : Type :=
| JNull
| JBool (b : bool)
| JNum (z : Z)
| JStr (s : string)
| JList (l : list json)
| JDict (d : list (string * json)).

(** onnx.AttributeProto.AttributeType *)
Inductive AttributeType : Type :=
| UNDEFINED | FLOAT | INT | STRING | TENSOR | GRAPH | FLOATS | INTS
| STRINGS | TENSORS | GRAPHS | SPARSE_TENSOR | SPARSE_TENSORS
| TYPE_PROTO | TYPE_PROTOS.

#[global] Instance AttributeType_eq_dec : EqDecision AttributeType.
Proof. solve_decision. Defined.

(** onnx.TensorProto, as far as the engine reads it: its name and its
    [MessageToDict] image. *)
Record TensorProto : Type := {
  tensor_name : string;
  tensor_dict : gmap string json
}.

(** onnx.ValueInfoProto: its name and [MessageToDict] of its type. *)
Record ValueInfoProto : Type := {
  vi_name : string;
  vi_type : json
}.

(** onnx.GraphProto, onnx.NodeProto and onnx.AttributeProto. An attribute
    that holds no graph has the empty default graph in [g]. *)
Inductive GraphProto : Type :=
| Build_GraphProto (node : list NodeProto) (initializer : list TensorProto)
    (input value_info output : list ValueInfoProto)
with NodeProto : Type :=
| Build_NodeProto (op_type domain : string) (input output : list string)
    (attribute : list AttributeProto)
with AttributeProto : Type :=
| Build_AttributeProto (name : string) (type : AttributeType)
    (g : GraphProto) (graphs : list GraphProto) (as_dict : json).

Definition gp_node (gp : GraphProto) : list NodeProto :=
  match gp with Build_GraphProto n _ _ _ _ => n end.
Definition gp_initializer (gp : GraphProto) : list TensorProto :=
  match gp with Build_GraphProto _ i _ _ _ => i end.
Definition gp_input (gp : GraphProto) : list ValueInfoProto :=
  match gp with Build_GraphProto _ _ i _ _ => i end.
Definition gp_value_info (gp : GraphProto) : list ValueInfoProto :=
  match gp with Build_GraphProto _ _ _ v _ => v end.
Definition gp_output (gp : GraphProto) : list ValueInfoProto :=
  match gp with Build_GraphProto _ _ _ _ o => o end.

Definition node_op_type (n : NodeProto) : string :=
  match n with Build_NodeProto t _ _ _ _ => t end.
Definition node_domain (n : NodeProto) : string :=
  match n with Build_NodeProto _ d _ _ _ => d end.
Definition node_input (n : NodeProto) : list string :=
  match n with Build_NodeProto _ _ i _ _ => i end.
Definition node_output (n : NodeProto) : list string :=
  match n with Build_NodeProto _ _ _ o _ => o end.
Definition node_attribute (n : NodeProto) : list AttributeProto :=
  match n with Build_NodeProto _ _ _ _ a => a end.

Definition attr_name (a : AttributeProto) : string :=
  match a with Build_AttributeProto n _ _ _ _ => n end.
Definition attr_type (a : AttributeProto) : AttributeType :=
  match a with Build_AttributeProto _ t _ _ _ => t end.
Definition attr_g (a : AttributeProto) : GraphProto :=
  match a with Build_AttributeProto _ _ g _ _ => g end.
Definition attr_graphs (a : AttributeProto) : list GraphProto :=
  match a with Build_AttributeProto _ _ _ gs _ => gs end.
(** [json_format.MessageToDict(attribute)] *)
Definition attr_dict (a : AttributeProto) : json :=
  match a with Build_AttributeProto _ _ _ _ d => d end.

(** onnx.FunctionProto and onnx.ModelProto, as far as the engine reads
    them. *)
Record FunctionProto : Type := {
  fn_name : string;
  fn_domain : string;
  fn_node : list NodeProto
}.

Record ModelProto : Type := {
  graph : GraphProto;
  functions : list FunctionProto
}.

(** youngbench.dataset.modules.model.Model *)
Record Model : Type := { onnx_model : ModelProto }.

(** onnx.defs.OpSchema: the formal parameters of an operator. *)
Inductive FormalParameterOption : Type := Single | Optional | Variadic.

#[global] Instance FormalParameterOption_eq_dec : EqDecision FormalParameterOption.
Proof. solve_decision. Defined.

Record FormalParameter : Type := {
  param_name : string;
  param_option : FormalParameterOption
}.

Record OpSchema : Type := {
  schema_inputs : list FormalParameter;
  schema_outputs : list FormalParameter
}.

(** youngbench.dataset.modules.node.Node *)
Record Node : Type := {
  operator_type : string;
  operator_domain : string;
  attributes : gmap string json;
  parameters : gmap string json;
  operands : gmap string json;
  results : gmap string json
}.

(** ** networkx.DiGraph

    Vertices carry an attribute dict; there is at most one edge per ordered
    pair of vertices, and it carries the four keyword attributes the engine
    gives it. *)
Record EdgeAttr : Type := {
  u_opn : string;
  v_opn : string;
  u_opi : Z;
  v_opi : Z
}.

Record DiGraph : Type := {
  g_node : gmap string json;
  g_adj : gmap (string * string) EdgeAttr
}.

Definition empty_DiGraph : DiGraph := {| g_node := ∅; g_adj := ∅ |}.

(** [G.add_node(n, **attr)] *)
Definition add_node (n : string) (attr : json) (G : DiGraph) : DiGraph :=
  {| g_node := <[n := attr]> (g_node G); g_adj := g_adj G |}.

(** A vertex that an edge mentions and the graph lacks is created with an
    empty attribute dict. *)
Definition touch_node (n : string) (nodes : gmap string json) : gmap string json :=
  match nodes !! n with
  | Some _ => nodes
  | None => <[n := JDict []]> nodes
  end.

(** [G.add_edge(u, v, **attr)]: a second edge between the same pair
    replaces the attributes of the first. *)
Definition add_edge (u v : string) (attr : EdgeAttr) (G : DiGraph) : DiGraph :=
  {| g_node := touch_node v (touch_node u (g_node G));
     g_adj := <[(u, v) := attr]> (g_adj G) |}.

Definition vertices (G : DiGraph) : list string := elements (dom (g_node G)).
Definition edges (G : DiGraph) : list (string * string) := elements (dom (g_adj G)).

(** youngbench.dataset.modules.network.Network *)
Record Network : Type := {
  nn_graph : DiGraph;
  nn_nodes : gmap string Node;
  nn_size : nat;
  is_sub : bool;
  is_fnc : bool
}.

(** An entry of [fp_networks]: still the onnx.FunctionProto it was seeded
    with, or the Network extracted from it. *)
Inductive RegistryEntry : Type :=
| Raw (fp : FunctionProto)
| Resolved (network : Network).

Abbreviation registry := (gmap (string * string) RegistryEntry).
(** [i2x] and [o2x]: value name to (vertex id, slot name, slot index). *)
Abbreviation slot_table := (gmap string (string * string * Z)).

(** ** networkx.is_directed_acyclic_graph

    networkx strips the graph generation by generation (Kahn's algorithm):
    every round removes the vertices that have no predecessor left, and the
    graph is acyclic when nothing remains. A graph of n vertices needs at
    most n rounds. *)
Definition has_pred_in (es : list (string * string)) (vs : list string)
    (v : string) : Prop :=
  Exists (λ e, e.2 = v ∧ e.1 ∈ vs) es.

#[global] Instance has_pred_in_dec es vs v : Decision (has_pred_in es vs v).
Proof. unfold has_pred_in. apply _. Defined.

Fixpoint strip (es : list (string * string)) (rounds : nat) (vs : list string)
  : list string :=
  match rounds with
  | 0 => vs
  | S rounds' => strip es rounds' (filter (has_pred_in es vs) vs)
  end.

Definition is_directed_acyclic_graph (G : DiGraph) : bool :=
  bool_decide (strip (edges G) (length (vertices G)) (vertices G) = []).

(** ** Slot resolution against an operator schema *)

(** [len(slots)] as a Python int. *)
Definition len {A : Type} (l : list A) : Z := Z.of_nat (length l).

(** [index >= len(slots) and slots[-1].option == slots[-1].option.Variadic.value];
    [and] evaluates its right operand only when the left one holds. *)
Definition overflows_variadic (slots : list FormalParameter) (index : Z)
  : Result bool :=
  if decide (len slots ≤ index)%Z then
    last ← py_index slots (-1);
    Ok (bool_decide (param_option last = Variadic))
  else Ok false.

(** [slots[index].name + (f'_{variadic_index}' if variadic_index else '')] *)
Definition slot_name (slots : list FormalParameter) (index : Z)
    (variadic_index : nat) : Result string :=
  slot ← py_index slots index;
  Ok (param_name slot +:+
      (if decide (variadic_index = 0) then "" else "_" +:+ pretty variadic_index)).

(** The block every slot loop of the built-in path shares:
<<
    if index >= len(slots) and slots[-1].option == ...Variadic.value:
        index = len(slots) - 1
        variadic_index += 1
    name = slots[index].name + (f'_{variadic_index}' if variadic_index else '')
>>
    It returns the name with the updated [index] and [variadic_index]. *)
Definition resolve_slot (slots : list FormalParameter) (index : Z)
    (variadic_index : nat) : Result (string * Z * nat) :=
  over ← overflows_variadic slots index;
  let index' := if over : bool then (len slots - 1)%Z else index in
  let variadic_index' := if over : bool then S variadic_index else variadic_index in
  name ← slot_name slots index' variadic_index';
  Ok (name, index', variadic_index').

(** The values of youngbench.constants.ONNXOperatorDomain: onnx.defs.ONNX_DOMAIN,
    ONNX_ML_DOMAIN and AI_ONNX_PREVIEW_TRAINING_DOMAIN. *)
Definition ONNXOperatorDomain : list string :=
  [""; "ai.onnx.ml"; "ai.onnx.preview.training"].

(** ** Producer and consumer edges (the second pass over the nodes) *)

(** [if name in i2x and name in o2x: nn_graph.add_edge(...)] *)
Definition connect (i2x o2x : slot_table) (G : DiGraph) (name : string)
  : DiGraph :=
  match i2x !! name, o2x !! name with
  | Some (v_nid, v_name, v_index), Some (u_nid, u_name, u_index) =>
      add_edge u_nid v_nid
        {| u_opn := u_name; v_opn := v_name; u_opi := u_index; v_opi := v_index |} G
  | _, _ => G
  end.

Definition connect_node (i2x o2x : slot_table) (G : DiGraph) (node : NodeProto)
  : DiGraph :=
  foldl (connect i2x o2x) (foldl (connect i2x o2x) G (node_input node))
    (node_output node).

Definition connect_all (i2x o2x : slot_table) (nodes : list NodeProto)
    (G : DiGraph) : DiGraph :=
  foldl (connect_node i2x o2x) G nodes.

(** ** One graph level *)

(** The local variables of [extract_from_gp] and [extract_from_fp] that the
    loop over the nodes updates. *)
Record Level : Type := {
  lv_graph : DiGraph;
  lv_nodes : gmap string Node;
  lv_size : nat;
  lv_deep : list Network;
  lv_i2x : slot_table;
  lv_o2x : slot_table
}.

Definition empty_Level : Level :=
  {| lv_graph := empty_DiGraph; lv_nodes := ∅; lv_size := 0; lv_deep := [];
     lv_i2x := ∅; lv_o2x := ∅ |}.

(** The graph after the second pass has added the edges. *)
Definition assembled_graph (nodes : list NodeProto) (lv : Level) : DiGraph :=
  connect_all (lv_i2x lv) (lv_o2x lv) nodes (lv_graph lv).

(** The assert on the assembled graph and the construction of the Network. *)
Definition finish_level (nodes : list NodeProto) (lv : Level)
    (sub fnc : bool) : Result (Network * list Network) :=
  let nn_graph := assembled_graph nodes lv in
  if is_directed_acyclic_graph nn_graph then
    Ok ({| nn_graph := nn_graph; nn_nodes := lv_nodes lv; nn_size := lv_size lv;
           is_sub := sub; is_fnc := fnc |}, lv_deep lv)
  else Err AssertionError_not_DAG.

(** [pm_info]: the loop over [gp.initializer]. *)
Definition pm_info_of (initializers : list TensorProto) : Result (gmap string json) :=
  for_each (λ initializer (pm_info : gmap string json),
      match tensor_dict initializer !! "dataType" with
      | Some dataType =>
          Ok (<[tensor_name initializer :=
                  JDict [("dims", JList [JStr "dims"]); ("dataType", dataType)]]>
                pm_info)
      | None => Err KeyError
      end)
    initializers ∅.

(** [io_info]: the loops over [gp.input], [gp.value_info] and [gp.output]. *)
Definition io_info_add (io_info : gmap string json) (value : ValueInfoProto)
  : gmap string json :=
  <[vi_name value := vi_type value]> io_info.

Definition io_info_of (gp : GraphProto) : gmap string json :=
  foldl io_info_add
    (foldl io_info_add (foldl io_info_add ∅ (gp_input gp)) (gp_value_info gp))
    (gp_output gp).

(** ** The engine *)

Section Engine.

(** What the engine takes from outside: onnx.shape_inference.infer_shapes,
    onnx.defs.get_schema (which raises when there is no schema), the
    [identifier] property of a Network and the [features] property of a
    Node. *)
Variable infer_shapes : ModelProto → ModelProto.
Variable get_schema : string → string → option OpSchema.
Variable identifier : Network → string.
Variable features : Node → json.

(** The signature of [extract_from_gp] and of [extract_from_fp]. *)
Definition Extractor (Proto : Type) : Type :=
  Proto → registry → bool → bool → Result (Network * list Network).

(** *** Attributes of a built-in node (the same in both extractors) *)

Definition extract_graphs (rec_gp : Extractor GraphProto)
    (fp_networks : registry) (deep_extract : bool)
    (attribute : AttributeProto) : Result (list Network * list Network) :=
  st ← (if deep_extract && bool_decide (attr_type attribute = GRAPH) then
          '(extracted, deep_extracted) ←
            rec_gp (attr_g attribute) fp_networks deep_extract true;
          Ok ([extracted], deep_extracted)
        else Ok ([], []));
  if deep_extract && bool_decide (attr_type attribute = GRAPHS) then
    for_each (λ attribute_g '(all_extracted, all_deep_extracted),
        '(extracted, deep_extracted) ←
          rec_gp attribute_g fp_networks deep_extract true;
        Ok (all_extracted ++ [extracted], all_deep_extracted ++ deep_extracted))
      (attr_graphs attribute) st
  else Ok st.

Definition materialize (rec_gp : Extractor GraphProto)
    (fp_networks : registry) (deep_extract : bool)
    (attribute : AttributeProto) (st : gmap string json * list Network)
  : Result (gmap string json * list Network) :=
  let '(attributes, deep_networks) := st in
  if bool_decide (attr_type attribute = GRAPH)
     || bool_decide (attr_type attribute = GRAPHS) then
    '(all_extracted, all_deep_extracted) ←
      extract_graphs rec_gp fp_networks deep_extract attribute;
    Ok (<[attr_name attribute := JList (JStr ∘ identifier <$> all_extracted)]>
          attributes,
        deep_networks ++ (all_extracted ++ all_deep_extracted))
  else
    Ok (<[attr_name attribute := attr_dict attribute]> attributes, deep_networks).

Definition materialize_all (rec_gp : Extractor GraphProto)
    (fp_networks : registry) (deep_extract : bool) (node : NodeProto)
    (deep_networks : list Network)
  : Result (gmap string json * list Network) :=
  for_each (materialize rec_gp fp_networks deep_extract)
    (node_attribute node) (∅, deep_networks).

(** *** [extract_from_gp]: the slot loops of a built-in node *)

Definition gp_parameter_step (operator : OpSchema) (pm_info : gmap string json)
    (index : nat) (input : string) (st : nat * gmap string json)
  : Result (nat * gmap string json) :=
  let '(variadic_index, parameters) := st in
  match pm_info !! input with
  | Some info =>
      '(parameter_name, _, variadic_index) ←
        resolve_slot (schema_inputs operator) (Z.of_nat index) variadic_index;
      Ok (variadic_index, <[parameter_name := info]> parameters)
  | None => Ok st
  end.

(** The operand loop and the result loop differ in the slot list and in
    the table ([i2x] or [o2x]) they fill. *)
Definition gp_slot_step (slots : list FormalParameter)
    (io_info : gmap string json) (nid : string)
    (index : nat) (value : string) (st : nat * slot_table * gmap string json)
  : Result (nat * slot_table * gmap string json) :=
  let '(variadic_index, x2x, named) := st in
  let index := Z.min (Z.of_nat index) (len slots - 1) in
  match io_info !! value with
  | Some info =>
      '(name, index, variadic_index) ← resolve_slot slots index variadic_index;
      Ok (variadic_index, <[value := (nid, name, index)]> x2x,
          <[name := info]> named)
  | None => Ok st
  end.

Definition gp_builtin_node (rec_gp : Extractor GraphProto)
    (fp_networks : registry) (deep_extract : bool)
    (pm_info io_info : gmap string json) (nid : string) (node : NodeProto)
    (lv : Level) : Result (Node * list Network * slot_table * slot_table) :=
  operator ← match get_schema (node_op_type node) (node_domain node) with
             | Some operator => Ok operator
             | None => Err SchemaError
             end;
  '(attributes, deep_networks) ←
    materialize_all rec_gp fp_networks deep_extract node (lv_deep lv);
  '(_, parameters) ←
    for_enumerate (gp_parameter_step operator pm_info) 0 (node_input node) (0, ∅);
  '(_, i2x, operands) ←
    for_enumerate (gp_slot_step (schema_inputs operator) io_info nid) 0
      (node_input node) (0, lv_i2x lv, ∅);
  '(_, o2x, results) ←
    for_enumerate (gp_slot_step (schema_outputs operator) io_info nid) 0
      (node_output node) (0, lv_o2x lv, ∅);
  Ok ({| operator_type := node_op_type node;
         operator_domain := node_domain node;
         attributes := attributes; parameters := parameters;
         operands := operands; results := results |},
      deep_networks, i2x, o2x).

(** *** [extract_from_gp]: a node outside the built-in domains *)

Definition gp_raw_step (io_info : gmap string json) (nid : string)
    (index : nat) (value : string) (st : slot_table * gmap string json)
  : Result (slot_table * gmap string json) :=
  let '(x2x, named) := st in
  match io_info !! value with
  | Some info =>
      Ok (<[value := (nid, value, Z.of_nat index)]> x2x, <[value := info]> named)
  | None => Ok st
  end.

Definition gp_function_node (fp_networks : registry)
    (io_info : gmap string json) (nid : string) (node : NodeProto)
    (lv : Level) : Result (Node * list Network * slot_table * slot_table) :=
  attributes ← match fp_networks !! (node_op_type node, node_domain node) with
               | None => Ok (∅ : gmap string json)
               | Some (Resolved fp_network) =>
                   Ok {["function" := JStr (identifier fp_network)]}
               | Some (Raw _) => Err AssertionError_not_Network
               end;
  '(i2x, operands) ←
    for_enumerate (gp_raw_step io_info nid) 0 (node_input node) (lv_i2x lv, ∅);
  '(o2x, results) ←
    for_enumerate (gp_raw_step io_info nid) 0 (node_output node) (lv_o2x lv, ∅);
  Ok ({| operator_type := node_op_type node;
         operator_domain := node_domain node;
         attributes := attributes; parameters := ∅;
         operands := operands; results := results |},
      lv_deep lv, i2x, o2x).

(** The end of the loop body: the vertex and the node record are stored
    under [str(nid)]. *)
Definition store_node (nid : string)
    (r : Node * list Network * slot_table * slot_table) (lv : Level) : Level :=
  let '(node, deep_networks, i2x, o2x) := r in
  {| lv_graph := add_node nid (features node) (lv_graph lv);
     lv_nodes := <[nid := node]> (lv_nodes lv);
     lv_size := S (lv_size lv);
     lv_deep := deep_networks; lv_i2x := i2x; lv_o2x := o2x |}.

Definition gp_node_step (rec_gp : Extractor GraphProto)
    (fp_networks : registry) (deep_extract : bool)
    (pm_info io_info : gmap string json)
    (nid : nat) (node : NodeProto) (lv : Level) : Result Level :=
  let nid := pretty nid in
  r ← (if bool_decide (node_domain node ∈ ONNXOperatorDomain) then
         gp_builtin_node rec_gp fp_networks deep_extract pm_info io_info nid node lv
       else gp_function_node fp_networks io_info nid node lv);
  Ok (store_node nid r lv).

(** The first pass of [extract_from_gp]: the two lookups and the loop
    over the nodes. *)
Definition gp_first_pass (rec_gp : Extractor GraphProto) (gp : GraphProto)
    (fp_networks : registry) (deep_extract : bool) : Result Level :=
  pm_info ← pm_info_of (gp_initializer gp);
  let io_info := io_info_of gp in
  for_enumerate (gp_node_step rec_gp fp_networks deep_extract pm_info io_info)
    0 (gp_node gp) empty_Level.

Definition extract_from_gp_body (rec_gp : Extractor GraphProto)
  : Extractor GraphProto := λ gp fp_networks deep_extract is_sub,
  lv ← gp_first_pass rec_gp gp fp_networks deep_extract;
  finish_level (gp_node gp) lv is_sub false.

(** *** [extract_from_fp] *)

(** In a function body every input and output is named, nothing is
    clamped, and the operand is the value name itself. *)
Definition fp_slot_step (slots : list FormalParameter) (nid : string)
    (index : nat) (value : string) (st : nat * slot_table * gmap string json)
  : Result (nat * slot_table * gmap string json) :=
  let '(variadic_index, x2x, named) := st in
  '(name, index, variadic_index) ←
    resolve_slot slots (Z.of_nat index) variadic_index;
  Ok (variadic_index, <[value := (nid, name, index)]> x2x,
      <[name := JStr value]> named).

(** [variadic_index] is set to 0 before the operand loop only: the result
    loop goes on from where the operand loop left it. *)
Definition fp_builtin_node (rec_gp : Extractor GraphProto)
    (fp_networks : registry) (deep_extract : bool)
    (nid : string) (node : NodeProto)
    (lv : Level) : Result (Node * list Network * slot_table * slot_table) :=
  operator ← match get_schema (node_op_type node) (node_domain node) with
             | Some operator => Ok operator
             | None => Err SchemaError
             end;
  '(attributes, deep_networks) ←
    materialize_all rec_gp fp_networks deep_extract node (lv_deep lv);
  '(variadic_index, i2x, operands) ←
    for_enumerate (fp_slot_step (schema_inputs operator) nid) 0
      (node_input node) (0, lv_i2x lv, ∅);
  '(_, o2x, results) ←
    for_enumerate (fp_slot_step (schema_outputs operator) nid) 0
      (node_output node) (variadic_index, lv_o2x lv, ∅);
  Ok ({| operator_type := node_op_type node;
         operator_domain := node_domain node;
         attributes := attributes; parameters := ∅;
         operands := operands; results := results |},
      deep_networks, i2x, o2x).

Definition fp_raw_step (nid : string)
    (index : nat) (value : string) (st : slot_table * gmap string json)
  : Result (slot_table * gmap string json) :=
  let '(x2x, named) := st in
  Ok (<[value := (nid, value, Z.of_nat index)]> x2x,
      <[value := JStr value]> named).

(** A callee that is still an onnx.FunctionProto is extracted, and then
    the statement
    [fp_networks[(function.name, function.domain)] = fp_network]
    raises NameError: [extract_from_fp] binds no name [function] (its
    parameter is [fp]), and the module has no such global. The key is
    evaluated before the store, so the registry is left as it was. *)
Definition fp_function_node (rec_fp : Extractor FunctionProto)
    (fp_networks : registry) (deep_extract : bool)
    (nid : string) (node : NodeProto)
    (lv : Level) : Result (Node * list Network * slot_table * slot_table) :=
  '(attributes, deep_networks) ←
    match fp_networks !! (node_op_type node, node_domain node) with
    | None => Ok (∅ : gmap string json, lv_deep lv)
    | Some (Raw fp_network) =>
        _ ← rec_fp fp_network fp_networks deep_extract true;
        Err NameError
    | Some (Resolved fp_network) =>
        Ok ({["function" := JStr (identifier fp_network)]}, lv_deep lv)
    end;
  '(i2x, operands) ←
    for_enumerate (fp_raw_step nid) 0 (node_input node) (lv_i2x lv, ∅);
  '(o2x, results) ←
    for_enumerate (fp_raw_step nid) 0 (node_output node) (lv_o2x lv, ∅);
  Ok ({| operator_type := node_op_type node;
         operator_domain := node_domain node;
         attributes := attributes; parameters := ∅;
         operands := operands; results := results |},
      deep_networks, i2x, o2x).

Definition fp_node_step (rec_gp : Extractor GraphProto)
    (rec_fp : Extractor FunctionProto)
    (fp_networks : registry) (deep_extract : bool)
    (nid : nat) (node : NodeProto) (lv : Level) : Result Level :=
  let nid := pretty nid in
  r ← (if bool_decide (node_domain node ∈ ONNXOperatorDomain) then
         fp_builtin_node rec_gp fp_networks deep_extract nid node lv
       else fp_function_node rec_fp fp_networks deep_extract nid node lv);
  Ok (store_node nid r lv).

(** The first pass of [extract_from_fp]: the loop over the nodes. *)
Definition fp_first_pass (rec_gp : Extractor GraphProto)
    (rec_fp : Extractor FunctionProto) (fp : FunctionProto)
    (fp_networks : registry) (deep_extract : bool) : Result Level :=
  for_enumerate (fp_node_step rec_gp rec_fp fp_networks deep_extract)
    0 (fn_node fp) empty_Level.

Definition extract_from_fp_body (rec_gp : Extractor GraphProto)
    (rec_fp : Extractor FunctionProto)
  : Extractor FunctionProto := λ fp fp_networks deep_extract is_sub,
  lv ← fp_first_pass rec_gp rec_fp fp fp_networks deep_extract;
  finish_level (fn_node fp) lv is_sub true.

(** *** Tying the recursion

    [fuel] is the depth of Python calls left before the interpreter
    raises RecursionError. *)
Fixpoint extract_from_gp (fuel : nat) : Extractor GraphProto :=
  match fuel with
  | 0 => λ _ _ _ _, Err RecursionError
  | S fuel' => extract_from_gp_body (extract_from_gp fuel')
  end.

Fixpoint extract_from_fp (fuel : nat) : Extractor FunctionProto :=
  match fuel with
  | 0 => λ _ _ _ _, Err RecursionError
  | S fuel' =>
      extract_from_fp_body (extract_from_gp fuel') (extract_from_fp fuel')
  end.

(** *** The entry points *)

Definition extract_network (fuel : nat) (model : Model) : Result Network :=
  let onnx_model := infer_shapes (onnx_model model) in
  '(network, _) ← extract_from_gp fuel (graph onnx_model) ∅ false false;
  Ok network.

Definition function_key (function : FunctionProto) : string * string :=
  (fn_name function, fn_domain function).

(** The first loop of [extract_networks]: every function is entered into
    the registry as it is. *)
Definition seed_registry (fs : list FunctionProto) : registry :=
  foldl (λ fp_networks function, <[function_key function := Raw function]> fp_networks)
    ∅ fs.

(** The second loop, from the registry and the list it has reached. An
    exception leaves the registry as the loop had made it. *)
Fixpoint resolve_functions (fuel : nat) (deep_extract : bool)
    (fs : list FunctionProto) (fp_networks : registry)
    (deep_networks : list Network) : registry * Result (list Network) :=
  match fs with
  | [] => (fp_networks, Ok deep_networks)
  | function :: fs' =>
      match fp_networks !! function_key function with
      | None => (fp_networks, Err KeyError)
      | Some (Raw _) =>
          match extract_from_fp fuel function fp_networks deep_extract true with
          | Ok (fp_network, fp_deep_networks) =>
              resolve_functions fuel deep_extract fs'
                (<[function_key function := Resolved fp_network]> fp_networks)
                (deep_networks ++ [fp_network] ++ fp_deep_networks)
          | Err e => (fp_networks, Err e)
          end
      | Some (Resolved fp_network) =>
          resolve_functions fuel deep_extract fs' fp_networks
            (deep_networks ++ [fp_network])
      end
  end.

(** The rest of [extract_networks] after the second loop. *)
Definition extract_main (fuel : nat) (deep_extract : bool)
    (onnx_model : ModelProto) (fp_networks : registry)
    (deep_networks : list Network) : Result (Network * list Network) :=
  '(network, gp_deep_networks) ←
    extract_from_gp fuel (graph onnx_model) fp_networks deep_extract false;
  Ok (network, deep_networks ++ gp_deep_networks).

(** [extract_networks] together with the registry as the call leaves it. *)
Definition run_extract_networks (fuel : nat) (model : Model)
    (deep_extract : bool) : registry * Result (Network * list Network) :=
  let onnx_model := infer_shapes (onnx_model model) in
  let fs := functions onnx_model in
  match resolve_functions fuel deep_extract fs (seed_registry fs) [] with
  | (fp_networks, Ok deep_networks) =>
      (fp_networks, extract_main fuel deep_extract onnx_model fp_networks deep_networks)
  | (fp_networks, Err e) => (fp_networks, Err e)
  end.

Definition extract_networks (fuel : nat) (model : Model) (deep_extract : bool)
  : Result (Network * list Network) :=
  (run_extract_networks fuel model deep_extract).2.

End Engine.

(** ** Vocabulary of the properties *)

(** [u -> v] is an edge of [G]. *)
Definition edge (G : DiGraph) (u v : string) : Prop :=
  is_Some (g_adj G !! (u, v)).

(** Every edge joins two vertices of the graph. *)
Definition graph_closed (G : DiGraph) : Prop :=
  ∀ u v, edge G u v → u ∈ dom (g_node G) ∧ v ∈ dom (g_node G).

(** [order] lists every vertex of [G] once, and every edge goes from an
    earlier vertex to a later one. *)
Definition topological_order (G : DiGraph) (order : list string) : Prop :=
  order ≡ₚ vertices G ∧
  ∀ i j u v, order !! i = Some u → order !! j = Some v → edge G u v → i < j.

(** In [l] every vertex comes after all its predecessors. *)
Definition preds_first (es : list (string * string)) (l : list string) : Prop :=
  ∀ l1 v l2 u, l = l1 ++ v :: l2 → (u, v) ∈ es → u ∈ l1.

(** A Network whose graph passed the acyclicity assert. *)
Definition acyclic_network (n : Network) : Prop :=
  graph_closed (nn_graph n) ∧ is_directed_acyclic_graph (nn_graph n) = true.

(** Every resolved entry of the registry satisfies [P]. *)
Definition registry_Forall (P : Network → Prop) (fp_networks : registry) : Prop :=
  ∀ key n, fp_networks !! key = Some (Resolved n) → P n.

(** What is resolved in [r1] is resolved, to the same Network, in [r2]. *)
Definition resolved_kept (r1 r2 : registry) : Prop :=
  ∀ key n, r1 !! key = Some (Resolved n) → r2 !! key = Some (Resolved n).

(** The invariant of the loop over the nodes of a level. *)
Definition level_ok (P : Network → Prop) (lv : Level) : Prop :=
  graph_closed (lv_graph lv) ∧ Forall P (lv_deep lv).

(** An extractor whose Networks, returned and discovered, all satisfy [P]. *)
Definition yields (P : Network → Prop) {Proto : Type}
    (ex : Proto → registry → bool → bool → Result (Network * list Network))
  : Prop :=
  ∀ p fp_networks deep_extract sub n deep,
    ex p fp_networks deep_extract sub = Ok (n, deep) → P n ∧ Forall P deep.

(** ** Sample inputs

    A small operator table and a few graphs and models on which the engine
    is run below. *)

Definition sample_infer_shapes (m : ModelProto) : ModelProto := m.

Definition slot (name : string) (option : FormalParameterOption) : FormalParameter :=
  {| param_name := name; param_option := option |}.

(** Relu and If as in the default operator set, and Accumulate, an
    operator with the two input slots [a] and [b], [b] variadic. *)
Definition sample_get_schema (op_type domain : string) : option OpSchema :=
  if bool_decide (domain = "") then
    if bool_decide (op_type = "Relu") then
      Some {| schema_inputs := [slot "X" Single];
              schema_outputs := [slot "Y" Single] |}
    else if bool_decide (op_type = "If") then
      Some {| schema_inputs := [slot "cond" Single];
              schema_outputs := [slot "outputs" Variadic] |}
    else if bool_decide (op_type = "Accumulate") then
      Some {| schema_inputs := [slot "a" Single; slot "b" Variadic];
              schema_outputs := [slot "y" Single] |}
    else None
  else None.

Definition sample_identifier (n : Network) : string :=
  (if is_fnc n then "function" else if is_sub n then "sub" else "main")
  +:+ "-" +:+ pretty (nn_size n).

Definition sample_features (n : Node) : json :=
  JDict [("operator_type", JStr (operator_type n));
         ("operator_domain", JStr (operator_domain n))].

(** A value with a type annotation, and an initializer. *)
Definition annotated (name : string) : ValueInfoProto :=
  {| vi_name := name; vi_type := JDict [("tensorType", JStr name)] |}.

Definition constant (name : string) : TensorProto :=
  {| tensor_name := name;
     tensor_dict := {["name" := JStr name; "dataType" := JNum 1]} |}.

Definition relu (x y : string) : NodeProto :=
  Build_NodeProto "Relu" "" [x] [y] [].

Definition empty_graph : GraphProto := Build_GraphProto [] [] [] [] [].

(** One producer of [v], two consumers. *)
Definition fan_out_graph : GraphProto :=
  Build_GraphProto [relu "x" "v"; relu "v" "y1"; relu "v" "y2"]
    [] [annotated "x"] [annotated "v"] [annotated "y1"; annotated "y2"].

(** Four positional inputs for the slots [a] and [b]. *)
Definition accumulate_node : NodeProto :=
  Build_NodeProto "Accumulate" "" ["x0"; "x1"; "x2"; "x3"] ["s"] [].

Definition accumulate_graph : GraphProto :=
  Build_GraphProto [accumulate_node] []
    [annotated "x0"; annotated "x1"; annotated "x2"; annotated "x3"] []
    [annotated "s"].

Definition accumulate_function : FunctionProto :=
  {| fn_name := "Acc"; fn_domain := "custom"; fn_node := [accumulate_node] |}.

(** [F] calls [G], and [G] is declared after [F]. *)
Definition function_F_calls_G : FunctionProto :=
  {| fn_name := "F"; fn_domain := "custom";
     fn_node := [Build_NodeProto "G" "custom" ["x"] ["y"] []] |}.

Definition function_G : FunctionProto :=
  {| fn_name := "G"; fn_domain := "custom"; fn_node := [relu "x" "y"] |}.

Definition forward_call_model : Model :=
  {| onnx_model := {| graph := empty_graph;
                      functions := [function_F_calls_G; function_G] |} |}.

(** A function body whose two nodes feed each other. *)
Definition cyclic_function : FunctionProto :=
  {| fn_name := "Loop"; fn_domain := "custom";
     fn_node := [relu "a" "b"; relu "b" "a"] |}.

Definition cyclic_graph : GraphProto :=
  Build_GraphProto [relu "a" "b"; relu "b" "a"] [] []
    [annotated "a"; annotated "b"] [].

Definition cyclic_second_model : Model :=
  {| onnx_model := {| graph := empty_graph;
                      functions := [function_G; cyclic_function] |} |}.

Definition one_function_model : Model :=
  {| onnx_model := {| graph := Build_GraphProto [relu "x" "y"] []
                                 [annotated "x"] [] [annotated "y"];
                      functions := [function_G] |} |}.

(** An If node with its two branches. *)
Definition branch_graph (x y : string) : GraphProto :=
  Build_GraphProto [relu x y] [] [annotated x] [] [annotated y].

Definition then_branch : AttributeProto :=
  Build_AttributeProto "then_branch" GRAPH (branch_graph "t" "tr") []
    (JDict [("name", JStr "then_branch")]).

Definition else_branch : AttributeProto :=
  Build_AttributeProto "else_branch" GRAPH (branch_graph "e" "er") []
    (JDict [("name", JStr "else_branch")]).

Definition if_node : NodeProto :=
  Build_NodeProto "If" "" ["c"] ["r"] [then_branch; else_branch].

Definition if_graph : GraphProto :=
  Build_GraphProto [if_node] [] [annotated "c"] [] [annotated "r"].

Definition if_model : Model :=
  {| onnx_model := {| graph := if_graph; functions := [] |} |}.

(** [w] is an initializer that is also listed among the graph inputs. *)
Definition shared_name_graph : GraphProto :=
  Build_GraphProto [relu "w" "y"] [constant "w"] [annotated "w"] []
    [annotated "y"].

(** Relu has one input slot; these nodes supply two inputs. *)
Definition overflow_node : NodeProto :=
  Build_NodeProto "Relu" "" ["x"; "w"] ["y"] [].

Definition overflow_graph : GraphProto :=
  Build_GraphProto [overflow_node] [constant "w"] [annotated "x"] []
    [annotated "y"].

Definition overflow_function : FunctionProto :=
  {| fn_name := "Over"; fn_domain := "custom"; fn_node := [overflow_node] |}.

(** A node of a domain that is neither built in nor registered. *)
Definition foreign_node : NodeProto :=
  Build_NodeProto "Mystery" "com.example" ["x"; "hidden"] ["y"] [].

(** ** The statements about the tags of function bodies

    After a successful [extract_networks], every function of the model is
    resolved to a Network of the returned list whose [is_sub] and [is_fnc]
    are [sub] and [fnc]. *)
Definition function_bodies_tagged (sub fnc : bool)
    (infer_shapes : ModelProto → ModelProto)
    (get_schema : string → string → option OpSchema)
    (identifier : Network → string) (features : Node → json)
    (fuel : nat) (model : Model) (deep_extract : bool) : Prop :=
  ∀ fp_networks network deep_networks,
    run_extract_networks infer_shapes get_schema identifier features fuel model
      deep_extract = (fp_networks, Ok (network, deep_networks)) →
    ∀ function, function ∈ functions (infer_shapes (onnx_model model)) →
    ∃ n, fp_networks !! function_key function = Some (Resolved n) ∧
         n ∈ deep_networks ∧ is_sub n = sub ∧ is_fnc n = fnc.

(** ** The statement about parameters and operands

    After a built-in node of a graph has been normalized, no input of the
    node has a parameters entry and an operands entry, both under the name
    of the slot it fills. *)
Definition never_in_both (operator : OpSchema) (node : NodeProto) (node' : Node)
  : Prop :=
  ∀ i input s,
    node_input node !! i = Some input →
    schema_inputs operator !! i = Some s →
    ¬ (is_Some (parameters node' !! param_name s) ∧
       is_Some (operands node' !! param_name s)).

(** ** The statements about graph-valued attributes *)

Definition graph_valued (a : AttributeProto) : Prop :=
  attr_type a = GRAPH ∨ attr_type a = GRAPHS.

(** The sub-graphs an attribute holds: the one of a GRAPH attribute, the
    list of a GRAPHS attribute. *)
Definition sub_graphs (a : AttributeProto) : list GraphProto :=
  match attr_type a with
  | GRAPH => [attr_g a]
  | GRAPHS => attr_graphs a
  | _ => []
  end.

(** ** What the engine returns on the sample inputs *)

Definition no_network : Network :=
  {| nn_graph := empty_DiGraph; nn_nodes := ∅; nn_size := 0;
     is_sub := false; is_fnc := false |}.

(** The value a call returned, for the calls below that do return. *)
Definition returned {A : Type} (default : A) (r : Result A) : A :=
  match r with
  | Ok a => a
  | Err _ => default
  end.

Definition one_function_registry : registry :=
  Eval vm_compute in
    (run_extract_networks sample_infer_shapes sample_get_schema
       sample_identifier sample_features 2 one_function_model false).1.

Definition one_function_returned : Network * list Network :=
  Eval vm_compute in
    returned (no_network, [])
      (run_extract_networks sample_infer_shapes sample_get_schema
         sample_identifier sample_features 2 one_function_model false).2.

Definition cyclic_registry_before : registry :=
  Eval vm_compute in
    (resolve_functions sample_get_schema sample_identifier sample_features
       2 true [function_G] (seed_registry [function_G; cyclic_function]) []).1.

Definition cyclic_registry_after : registry :=
  Eval vm_compute in
    (run_extract_networks sample_infer_shapes sample_get_schema
       sample_identifier sample_features 2 cyclic_second_model true).1.

Definition if_shallow_network : Network :=
  Eval vm_compute in
    (returned (no_network, [])
       (extract_from_gp sample_get_schema sample_identifier sample_features
          1 if_graph ∅ false false)).1.

Definition if_deep_returned : Network * list Network :=
  Eval vm_compute in
    returned (no_network, [])
      (extract_from_gp sample_get_schema sample_identifier sample_features
         2 if_graph ∅ true false).

Definition cyclic_deeps_before : list Network :=
  Eval vm_compute in
    returned []
      (resolve_functions sample_get_schema sample_identifier sample_features
         2 true [function_G] (seed_registry [function_G; cyclic_function]) []).2.

(** The [is_sub] tag of a resolved registry entry. *)
Definition entry_is_sub (fp_networks : registry) (key : string * string)
  : option bool :=
  match fp_networks !! key with
  | Some (Resolved n) => Some (is_sub n)
  | _ => None
  end.

(** ** Vocabulary of the naming rules *)

(** [enumerate(l)], counting from [start]. *)
Definition enumerate {A : Type} (start : nat) (l : list A) : list (nat * A) :=
  zip (seq start (length l)) l.

(** [f'_{k}' if k else ''] *)
Definition suffix (k : nat) : string :=
  if decide (k = 0) then "" else "_" +:+ pretty k.

(** The name [extract_from_fp] gives the value at position [i] when the
    loop starts with [variadic_index = carried]: a position inside the
    schema takes the name of its slot, a position beyond it the name of the
    last slot, and the suffix counts the positions beyond the schema. *)
Definition fp_slot_name (slots : list FormalParameter) (carried : nat) (i : nat)
  : option string :=
  if decide (i < length slots)%nat then
    (λ s, param_name s +:+ suffix carried) <$> slots !! i
  else
    (λ s, param_name s +:+ suffix (carried + (i - length slots) + 1)) <$> last slots.

(** The name [extract_from_gp] gives the annotated value at position [i]:
    the name of slot [min(i, len(slots) - 1)], never a suffix. *)
Definition gp_slot_name (slots : list FormalParameter) (i : nat) : option string :=
  param_name <$> slots !! (i `min` (length slots - 1))%nat.

(** ** Vocabulary of the vertices and the edges of a level *)

(** The position of the last node that lists [name] among [proj], its
    inputs or its outputs. *)
Definition last_user (proj : NodeProto → list string) (nodes : list NodeProto)
    (name : string) : option nat :=
  fst <$> last (filter (λ kn, name ∈ proj kn.2) (enumerate 0 nodes)).

(** The vertex a slot table ([i2x] or [o2x]) holds for a value name. *)
Definition table_vertex (x2x : slot_table) (name : string) : option string :=
  (λ e, e.1.1) <$> x2x !! name.

(** [x2x] has an entry for the names that satisfy [ok] and that some node
    lists among [proj]; the entry names the last such node. *)
Definition table_of (ok : string → Prop) (proj : NodeProto → list string)
    (nodes : list NodeProto) (x2x : slot_table) : Prop :=
  ∀ name v, table_vertex x2x name = Some v ↔
            ok name ∧ pretty <$> last_user proj nodes name = Some v.

(** What the slot loop of the node [nid] does to a table: the names of
    [names] that satisfy [ok] now lead to [nid], the others are as before. *)
Definition table_step (ok : string → Prop) (nid : string) (names : list string)
    (x2x x2x' : slot_table) : Prop :=
  ∀ name, (ok name ∧ name ∈ names ∧ table_vertex x2x' name = Some nid) ∨
          (¬ (ok name ∧ name ∈ names) ∧ x2x' !! name = x2x !! name).

(** One record and one vertex per node, under the ids [str(0)], [str(1)],
    and so on; the record keeps the type and the domain of its node, and
    the vertex carries the features of the record. *)
Definition records_of (features : Node → json) (nodes : list NodeProto)
    (records : gmap string Node) (vertex_attrs : gmap string json) : Prop :=
  (∀ nid, is_Some (records !! nid) ↔
          ∃ i : nat, (i < length nodes)%nat ∧ nid = pretty i) ∧
  (∀ nid, vertex_attrs !! nid = features <$> records !! nid) ∧
  (∀ (i : nat) node, nodes !! i = Some node →
     ∃ record, records !! pretty i = Some record ∧
               operator_type record = node_op_type node ∧
               operator_domain record = node_domain node).

(** The invariant of the first pass, after [k] nodes. *)
Definition level_at (features : Node → json) (ok : string → Prop)
    (nodes : list NodeProto) (k : nat) (lv : Level) : Prop :=
  lv_size lv = k ∧ g_adj (lv_graph lv) = ∅ ∧
  records_of features (take k nodes) (lv_nodes lv) (g_node (lv_graph lv)) ∧
  table_of ok node_input (take k nodes) (lv_i2x lv) ∧
  table_of ok node_output (take k nodes) (lv_o2x lv).

(** Some value name that satisfies [ok] has its last producer at [u] and
    its last consumer at [v]. *)
Definition links (ok : string → Prop) (nodes : list NodeProto) (u v : string)
  : Prop :=
  ∃ name (j k : nat),
    ok name ∧
    last_user node_output nodes name = Some j ∧
    last_user node_input nodes name = Some k ∧
    u = pretty j ∧ v = pretty k.

(** The producer/consumer relation of a level, read off its nodes: the
    node at [u] lists among its outputs a value name that the node at [v]
    lists among its inputs. *)
Definition feeds (nodes : list NodeProto) (u v : string) : Prop :=
  ∃ (j k : nat) producer consumer name,
    nodes !! j = Some producer ∧ nodes !! k = Some consumer ∧
    name ∈ node_output producer ∧ name ∈ node_input consumer ∧
    u = pretty j ∧ v = pretty k.

(** Node 0 feeds node 1 through [v0] and node 1 feeds node 0 through [v1];
    node 2 consumes [v1] as well. *)
Definition hidden_cycle_nodes : list NodeProto :=
  [Build_NodeProto "Accumulate" "" ["x"; "v1"] ["v0"] [];
   relu "v0" "v1"; relu "v1" "y"].

Definition hidden_cycle_graph : GraphProto :=
  Build_GraphProto hidden_cycle_nodes [] [annotated "x"]
    [annotated "v0"; annotated "v1"] [annotated "y"].

Definition hidden_cycle_function : FunctionProto :=
  {| fn_name := "Hidden"; fn_domain := "custom"; fn_node := hidden_cycle_nodes |}.

(** The graph with the fan-out, and one function beside it. *)
Definition fan_out_model : Model :=
  {| onnx_model := {| graph := fan_out_graph; functions := [function_G] |} |}.

(** Shorthands for the engine on the sample operator table. *)
Abbreviation sample_gp :=
  (extract_from_gp sample_get_schema sample_identifier sample_features).
Abbreviation sample_fp :=
  (extract_from_fp sample_get_schema sample_identifier sample_features).
Abbreviation sample_run :=
  (run_extract_networks sample_infer_shapes sample_get_schema sample_identifier
     sample_features).

(** Drops the section variables a statement does not mention, so that
    the solvers below do not generalise over them. *)
Ltac drop_unused :=
  repeat match goal with
         | x : string → string → option OpSchema |- _ => clear x
         | x : Network → string |- _ => clear x
         | x : Node → json |- _ => clear x
         end.

(** * Properties *)

(** ** The acyclicity check *)

Lemma preds_first_nil es : preds_first es [].
Proof. intros [|??] v l2 u Heq; discriminate. Qed.

Lemma preds_first_app es l gen :
  preds_first es l →
  (∀ u v, v ∈ gen → (u, v) ∈ es → u ∈ l) →
  preds_first es (l ++ gen).
Proof.
  intros Hl Hgen l1 v l2 u Heq Hin.
  apply app_eq_inv in Heq as [(k & Hl1 & Hk) | (k & -> & Hk)].
  - destruct k as [|w k]; simpl in Hk.
    + rewrite app_nil_r in Hl1. subst l1. apply (Hgen u v); [|done].
      rewrite <- Hk. left.
    + injection Hk as <- _. by apply (Hl l1 v k u).
  - apply elem_of_app. left. apply (Hgen u v); [|done].
    rewrite Hk. apply elem_of_app. right. left.
Qed.

Lemma strip_sound es rounds : ∀ vs done,
  preds_first es done →
  NoDup (done ++ vs) →
  (∀ u v, (u, v) ∈ es → u ∈ done ++ vs) →
  strip es rounds vs = [] →
  ∃ order, preds_first es order ∧ order ≡ₚ done ++ vs.
Proof.
  induction rounds as [|rounds IH]; intros vs done Hdone Hnd Hsrc Hstrip.
  - simpl in Hstrip. subst vs. exists done. by rewrite app_nil_r.
  - simpl in Hstrip.
    set (gen := filter (λ v, ¬ has_pred_in es vs v) vs).
    assert (Hperm : (done ++ gen) ++ filter (has_pred_in es vs) vs ≡ₚ done ++ vs).
    { rewrite <- (assoc_L (++)). f_equiv.
      rewrite (comm (++)). apply filter_app_complement. }
    destruct (IH (filter (has_pred_in es vs) vs) (done ++ gen)) as (order & Ho & Hp).
    + apply preds_first_app; [done|].
      intros u v Hv Huv. apply list_elem_of_filter in Hv as [Hno Hv].
      specialize (Hsrc u v Huv). apply elem_of_app in Hsrc as [|Hu]; [done|].
      exfalso. apply Hno. apply Exists_exists. by exists (u, v).
    + by rewrite Hperm.
    + intros u v Huv. rewrite Hperm. by eapply Hsrc.
    + done.
    + exists order. split; [done|]. by rewrite Hp.
Qed.

Lemma strip_keeps es (C : string → Prop) rounds : ∀ vs,
  (∀ x, C x → x ∈ vs) →
  (∀ x, C x → ∃ u, C u ∧ (u, x) ∈ es) →
  ∀ x, C x → x ∈ strip es rounds vs.
Proof.
  induction rounds as [|rounds IH]; intros vs Hin Hpred x Hx; simpl; [by apply Hin|].
  apply IH; [|done..].
  intros y Hy. apply list_elem_of_filter. split; [|by apply Hin].
  destruct (Hpred y Hy) as (u & Hu & Huy).
  apply Exists_exists. exists (u, y). by auto.
Qed.

Lemma elem_of_edges G u v : (u, v) ∈ edges G ↔ edge G u v.
Proof. unfold edges, edge. by rewrite elem_of_elements, elem_of_dom. Qed.

Lemma elem_of_vertices G v : v ∈ vertices G ↔ v ∈ dom (g_node G).
Proof. unfold vertices. by rewrite elem_of_elements. Qed.

Lemma preds_first_lt es l i j u v :
  NoDup l → preds_first es l →
  l !! i = Some u → l !! j = Some v → (u, v) ∈ es → i < j.
Proof.
  intros Hnd Hl Hi Hj Huv.
  assert (Hsplit : l = take j l ++ v :: drop (S j) l).
  { by rewrite <- (take_drop_middle l j v) at 1. }
  specialize (Hl _ _ _ _ Hsplit Huv).
  apply elem_of_take in Hl as (i' & Hi' & Hlt).
  by rewrite (NoDup_lookup l i i' u Hnd Hi Hi').
Qed.

Lemma dag_topological_order G :
  graph_closed G → is_directed_acyclic_graph G = true →
  ∃ order, topological_order G order.
Proof.
  intros Hc Hdag. unfold is_directed_acyclic_graph in Hdag.
  apply bool_decide_eq_true in Hdag.
  destruct (strip_sound (edges G) (length (vertices G)) (vertices G) [] (preds_first_nil _))
    as (order & Ho & Hp); simpl.
  - unfold vertices. apply NoDup_elements.
  - intros u v Huv. apply elem_of_edges in Huv.
    apply elem_of_vertices. by apply (Hc u v).
  - exact Hdag.
  - simpl in Hp. exists order. split; [done|].
    intros i j u v Hi Hj Huv.
    eapply (preds_first_lt (edges G)); [|done..|by apply elem_of_edges].
    rewrite Hp. unfold vertices. apply NoDup_elements.
Qed.

Lemma cycle_not_dag G v :
  graph_closed G → tc (edge G) v v → is_directed_acyclic_graph G = false.
Proof.
  intros Hc Hcyc. apply bool_decide_eq_false. intros Hnil.
  pose (C := λ x, tc (edge G) v x ∧ tc (edge G) x v).
  assert (Hin : v ∈ strip (edges G) (length (vertices G)) (vertices G)).
  { apply (strip_keeps (edges G) C).
    - intros x [Hvx _]. apply elem_of_vertices.
      assert (∃ u, edge G u x) as [u Hu].
      { clear -Hvx. induction Hvx; eauto. }
      by apply (Hc u x).
    - intros x [Hvx Hxv].
      assert (∃ u, rtc (edge G) v u ∧ edge G u x) as (u & Hvu & Hux).
      { clear -Hvx. induction Hvx as [a b Hab | a b c Hab Hbc (u & Hbu & Huc)].
        - exists a. split; [apply rtc_refl | done].
        - exists u. split; [by eapply rtc_l | done]. }
      exists u. split; [|by apply elem_of_edges].
      split.
      + apply rtc_tc in Hvu as [<- | Hvu]; [done | done].
      + eapply tc_l; [exact Hux | exact Hxv].
    - by split. }
  rewrite Hnil in Hin. by apply elem_of_nil in Hin.
Qed.

(** ** Loops and results *)

Lemma bind_Ok {A B : Type} (m : Result A) (k : A → Result B) (b : B) :
  m ≫= k = Ok b ↔ ∃ a, m = Ok a ∧ k a = Ok b.
Proof.
  destruct m as [a|e]; simpl; split.
  - intros H. by exists a.
  - by intros (a' & [= <-] & H).
  - discriminate.
  - by intros (a' & [=] & _).
Qed.

Lemma for_enumerate_cons {A St : Type} (body : nat → A → St → Result St)
    start x l s :
  for_enumerate body start (x :: l) s =
  body start x s ≫= for_enumerate body (S start) l.
Proof. done. Qed.

Lemma for_each_cons {A St : Type} (body : A → St → Result St) x l s :
  for_each body (x :: l) s = body x s ≫= for_each body l.
Proof. done. Qed.

Lemma for_each_ind {A St : Type} (P : St → Prop) (body : A → St → Result St) l :
  ∀ s s',
  (∀ x s s', x ∈ l → P s → body x s = Ok s' → P s') →
  P s → for_each body l s = Ok s' → P s'.
Proof.
  induction l as [|x l IH]; intros s s' Hstep Hs Hrun; simpl in Hrun.
  - by injection Hrun as <-.
  - apply bind_Ok in Hrun as (s1 & H1 & Hrun).
    apply (IH s1 s'); [|by eapply Hstep; [left|..]|done].
    intros y t t' Hy. apply Hstep. by right.
Qed.

Lemma for_enumerate_ind {A St : Type} (P : St → Prop)
    (body : nat → A → St → Result St) l :
  ∀ start s s',
  (∀ i x s s', l !! i = Some x → P s → body (start + i) x s = Ok s' → P s') →
  P s → for_enumerate body start l s = Ok s' → P s'.
Proof.
  induction l as [|x l IH]; intros start s s' Hstep Hs Hrun; simpl in Hrun.
  - by injection Hrun as <-.
  - apply bind_Ok in Hrun as (s1 & H1 & Hrun).
    apply (IH (S start) s1 s'); [| |done].
    + intros i y t t' Hy Ht Hb. apply (Hstep (S i) y t t'); [done|done|].
      by rewrite Nat.add_succ_r.
    + apply (Hstep 0 x s s1); [done|done|]. by rewrite Nat.add_0_r.
Qed.

(** ** Graphs built by the engine are closed *)

Lemma graph_closed_empty : graph_closed empty_DiGraph.
Proof. intros u v [a Ha]. simpl in Ha. by rewrite lookup_empty in Ha. Qed.

Lemma graph_closed_add_node n attr G :
  graph_closed G → graph_closed (add_node n attr G).
Proof.
  intros Hc u v Huv. destruct (Hc u v Huv) as [Hu Hv].
  simpl. rewrite dom_insert_L. set_solver.
Qed.

Lemma dom_touch_node n nodes : dom (touch_node n nodes) = {[n]} ∪ dom nodes.
Proof.
  unfold touch_node. destruct (nodes !! n) as [a|] eqn:Hn.
  - apply (elem_of_dom_2 nodes) in Hn. set_solver.
  - by rewrite dom_insert_L.
Qed.

Lemma graph_closed_add_edge u v attr G :
  graph_closed G → graph_closed (add_edge u v attr G).
Proof.
  intros Hc a b Hab. unfold edge in Hab. simpl in *.
  rewrite !dom_touch_node.
  destruct (decide ((u, v) = (a, b))) as [[= <- <-]|Hne]; [set_solver|].
  rewrite lookup_insert_ne in Hab by done.
  destruct (Hc a b Hab). set_solver.
Qed.

Lemma graph_closed_connect i2x o2x G name :
  graph_closed G → graph_closed (connect i2x o2x G name).
Proof.
  intros Hc. unfold connect.
  destruct (i2x !! name) as [[[??]?]|]; [|done].
  destruct (o2x !! name) as [[[??]?]|]; [|done].
  by apply graph_closed_add_edge.
Qed.

Lemma graph_closed_connect_names i2x o2x names : ∀ G,
  graph_closed G → graph_closed (foldl (connect i2x o2x) G names).
Proof.
  induction names as [|x names IH]; intros G Hc; simpl; [done|].
  by apply IH, graph_closed_connect.
Qed.

Lemma graph_closed_connect_all i2x o2x nodes : ∀ G,
  graph_closed G → graph_closed (connect_all i2x o2x nodes G).
Proof.
  unfold connect_all.
  induction nodes as [|x nodes IH]; intros G Hc; simpl; [done|].
  apply IH. unfold connect_node. by do 2 apply graph_closed_connect_names.
Qed.

(** What [finish_level] returns, when it returns. *)
Lemma finish_level_Ok nodes lv sub fnc n deep :
  finish_level nodes lv sub fnc = Ok (n, deep) →
  nn_graph n = assembled_graph nodes lv ∧
  is_directed_acyclic_graph (nn_graph n) = true ∧
  nn_nodes n = lv_nodes lv ∧ nn_size n = lv_size lv ∧
  is_sub n = sub ∧ is_fnc n = fnc ∧ deep = lv_deep lv.
Proof.
  unfold finish_level.
  destruct (is_directed_acyclic_graph _) eqn:Hdag; [|discriminate].
  intros [= <- <-]. by simpl.
Qed.

Lemma finish_level_acyclic nodes lv sub fnc n deep :
  graph_closed (lv_graph lv) →
  finish_level nodes lv sub fnc = Ok (n, deep) → acyclic_network n.
Proof.
  intros Hc Hfin. apply finish_level_Ok in Hfin as (Hg & Hdag & _).
  split; [|done]. rewrite Hg. by apply graph_closed_connect_all.
Qed.

Lemma finish_level_cycle nodes lv sub fnc v :
  graph_closed (lv_graph lv) →
  tc (edge (assembled_graph nodes lv)) v v →
  finish_level nodes lv sub fnc = Err AssertionError_not_DAG.
Proof.
  intros Hc Hcyc. unfold finish_level.
  by rewrite (cycle_not_dag _ v) by (by try apply graph_closed_connect_all).
Qed.

(** ** Every Network the engine hands out satisfies what its levels
    establish *)

Section Yields.

Variable infer_shapes : ModelProto → ModelProto.
Variable get_schema : string → string → option OpSchema.
Variable identifier : Network → string.
Variable features : Node → json.

(** [P] holds of every Network that passes through [finish_level] from a
    level whose graph is closed. *)
Variable P : Network → Prop.
Hypothesis P_finish : ∀ nodes lv sub fnc n deep,
  graph_closed (lv_graph lv) →
  finish_level nodes lv sub fnc = Ok (n, deep) → P n.

Lemma extract_graphs_yields rec_gp fp_networks deep_extract attribute xs ds :
  yields P rec_gp →
  extract_graphs rec_gp fp_networks deep_extract attribute = Ok (xs, ds) →
  Forall P xs ∧ Forall P ds.
Proof.
  intros Hrec Hrun. unfold extract_graphs in Hrun.
  apply bind_Ok in Hrun as ([xs0 ds0] & H0 & Hrun).
  assert (Forall P xs0 ∧ Forall P ds0) as H0'.
  { destruct (deep_extract && bool_decide (attr_type attribute = GRAPH)).
    - apply bind_Ok in H0 as ([x d] & Hx & [= <- <-]).
      apply Hrec in Hx as [Hx Hd]. by repeat constructor.
    - injection H0 as <- <-. by split. }
  destruct (deep_extract && bool_decide (attr_type attribute = GRAPHS));
    [|by injection Hrun as <- <-].
  revert Hrun.
  apply (for_each_ind (λ st, Forall P st.1 ∧ Forall P st.2)
           _ _ (xs0, ds0) (xs, ds)); [|done].
  intros g [a b] [a' b'] _ [Ha Hb] Hstep. simpl in *.
  apply bind_Ok in Hstep as ([x d] & Hx & [= <- <-]).
  apply Hrec in Hx as [Hx Hd]. split; apply Forall_app; by repeat constructor.
Qed.

Lemma materialize_all_yields rec_gp fp_networks deep_extract node deep attrs deep' :
  yields P rec_gp → Forall P deep →
  materialize_all identifier rec_gp fp_networks deep_extract node deep
    = Ok (attrs, deep') →
  Forall P deep'.
Proof.
  intros Hrec Hdeep. unfold materialize_all.
  apply (for_each_ind (λ st, Forall P st.2) _ _ (∅, deep) (attrs, deep')); [|done].
  intros a [m d] [m' d'] _ Hd Hstep. simpl in *.
  destruct (bool_decide (attr_type a = GRAPH) || bool_decide (attr_type a = GRAPHS)).
  - apply bind_Ok in Hstep as ([xs ds] & Hx & [= <- <-]).
    apply extract_graphs_yields in Hx as [Hxs Hds]; [|done].
    by repeat apply Forall_app_2.
  - by injection Hstep as <- <-.
Qed.

Lemma level_ok_empty : level_ok P empty_Level.
Proof. split; [apply graph_closed_empty | constructor]. Qed.

Lemma level_ok_store nid node deep i2x o2x lv :
  graph_closed (lv_graph lv) → Forall P deep →
  level_ok P (store_node features nid (node, deep, i2x, o2x) lv).
Proof. intros Hc Hd. split; simpl; [by apply graph_closed_add_node | done]. Qed.

Lemma gp_node_step_ok rec_gp fp_networks deep_extract pm_info io_info nid node lv lv' :
  yields P rec_gp → level_ok P lv →
  gp_node_step get_schema identifier features rec_gp fp_networks deep_extract
    pm_info io_info nid node lv = Ok lv' →
  level_ok P lv'.
Proof.
  intros Hrec [Hc Hd] Hstep. unfold gp_node_step in Hstep.
  apply bind_Ok in Hstep as ([[[node' deep] i2x] o2x] & Hr & [= <-]).
  apply level_ok_store; [done|].
  destruct (bool_decide (node_domain node ∈ ONNXOperatorDomain)).
  - unfold gp_builtin_node in Hr.
    apply bind_Ok in Hr as (operator & _ & Hr).
    apply bind_Ok in Hr as ([attrs deep1] & Hattr & Hr).
    apply bind_Ok in Hr as ([? ?] & _ & Hr).
    apply bind_Ok in Hr as ([[? ?] ?] & _ & Hr).
    apply bind_Ok in Hr as ([[? ?] ?] & _ & [= _ <- _ _]).
    by eapply materialize_all_yields.
  - unfold gp_function_node in Hr.
    apply bind_Ok in Hr as (attrs & _ & Hr).
    apply bind_Ok in Hr as ([? ?] & _ & Hr).
    by apply bind_Ok in Hr as ([? ?] & _ & [= _ <- _ _]).
Qed.

Lemma extract_from_gp_body_yields rec_gp :
  yields P rec_gp →
  yields P (extract_from_gp_body get_schema identifier features rec_gp).
Proof.
  intros Hrec gp fp_networks deep_extract sub n deep Hrun.
  unfold extract_from_gp_body in Hrun.
  apply bind_Ok in Hrun as (lv & Hloop & Hfin).
  unfold gp_first_pass in Hloop.
  apply bind_Ok in Hloop as (pm_info & _ & Hloop).
  assert (level_ok P lv) as [Hc Hd].
  { revert Hloop. apply for_enumerate_ind; [|apply level_ok_empty].
    intros i node s s' _ Hs. by apply gp_node_step_ok. }
  split; [by eapply P_finish|].
  by apply finish_level_Ok in Hfin as (_ & _ & _ & _ & _ & _ & ->).
Qed.

Lemma extract_from_gp_yields fuel :
  yields P (extract_from_gp get_schema identifier features fuel).
Proof.
  induction fuel as [|fuel IH]; [by intros ? ? ? ? ? ? [=]|].
  by apply extract_from_gp_body_yields.
Qed.

Lemma fp_node_step_ok rec_gp rec_fp fp_networks deep_extract nid node lv lv' :
  yields P rec_gp → level_ok P lv →
  fp_node_step get_schema identifier features rec_gp rec_fp fp_networks
    deep_extract nid node lv = Ok lv' →
  level_ok P lv'.
Proof.
  intros Hrec [Hc Hd] Hstep. unfold fp_node_step in Hstep.
  apply bind_Ok in Hstep as ([[[node' deep] i2x] o2x] & Hr & [= <-]).
  apply level_ok_store; [done|].
  destruct (bool_decide (node_domain node ∈ ONNXOperatorDomain)).
  - unfold fp_builtin_node in Hr.
    apply bind_Ok in Hr as (operator & _ & Hr).
    apply bind_Ok in Hr as ([attrs deep1] & Hattr & Hr).
    apply bind_Ok in Hr as ([[? ?] ?] & _ & Hr).
    apply bind_Ok in Hr as ([[? ?] ?] & _ & [= _ <- _ _]).
    by eapply materialize_all_yields.
  - unfold fp_function_node in Hr.
    apply bind_Ok in Hr as ([attrs deep1] & Hattr & Hr).
    apply bind_Ok in Hr as ([? ?] & _ & Hr).
    apply bind_Ok in Hr as ([? ?] & _ & [= _ <- _ _]).
    destruct (fp_networks !! _) as [[raw|resolved]|].
    + by apply bind_Ok in Hattr as (? & _ & [=]).
    + by injection Hattr as _ <-.
    + by injection Hattr as _ <-.
Qed.

Lemma extract_from_fp_yields fuel :
  yields P (extract_from_fp get_schema identifier features fuel).
Proof.
  destruct fuel as [|fuel]; [by intros ? ? ? ? ? ? [=]|].
  intros fp fp_networks deep_extract sub n deep Hrun. simpl in Hrun.
  unfold extract_from_fp_body in Hrun.
  apply bind_Ok in Hrun as (lv & Hloop & Hfin).
  unfold fp_first_pass in Hloop.
  assert (level_ok P lv) as [Hc Hd].
  { revert Hloop. apply for_enumerate_ind; [|apply level_ok_empty].
    intros i node s s' _ Hs. apply fp_node_step_ok; [|done].
    apply extract_from_gp_yields. }
  split; [by eapply P_finish|].
  by apply finish_level_Ok in Hfin as (_ & _ & _ & _ & _ & _ & ->).
Qed.

End Yields.

(** ** The function registry *)

Lemma resolved_kept_refl r : resolved_kept r r.
Proof. by intros key n. Qed.

Lemma resolved_kept_trans r1 r2 r3 :
  resolved_kept r1 r2 → resolved_kept r2 r3 → resolved_kept r1 r3.
Proof. intros H12 H23 key n Hk. by apply H23, H12. Qed.

Lemma seed_registry_raw fs key entry :
  seed_registry fs !! key = Some entry → ∃ fp, entry = Raw fp.
Proof.
  unfold seed_registry.
  assert (∀ (acc : registry),
    (∀ e, acc !! key = Some e → ∃ fp, e = Raw fp) →
    foldl (λ fp_networks function, <[function_key function := Raw function]> fp_networks)
      acc fs !! key = Some entry → ∃ fp, entry = Raw fp) as Hgen.
  { induction fs as [|f fs IH]; intros acc Hacc; simpl; [by apply Hacc|].
    apply IH. intros e.
    destruct (decide (function_key f = key)) as [<-|Hne].
    - rewrite lookup_insert_eq. intros [= <-]. by eexists.
    - rewrite lookup_insert_ne by done. apply Hacc. }
  apply Hgen. intros e. by rewrite lookup_empty.
Qed.

Lemma seed_registry_Forall P fs : registry_Forall P (seed_registry fs).
Proof. intros key n Hk. by apply seed_registry_raw in Hk as [fp [=]]. Qed.

Section Registry.

Variable infer_shapes : ModelProto → ModelProto.
Variable get_schema : string → string → option OpSchema.
Variable identifier : Network → string.
Variable features : Node → json.

(** The loop over the functions writes a key only while it is raw, so a
    resolved entry is never touched again, whatever the outcome. *)
Lemma resolve_functions_kept fuel deep_extract fs : ∀ reg deeps reg' r,
  resolve_functions get_schema identifier features fuel deep_extract fs reg deeps = (reg', r) → resolved_kept reg reg'.
Proof.
  induction fs as [|f fs IH]; intros reg deeps reg' r Hrun; simpl in Hrun.
  - injection Hrun as <- _. apply resolved_kept_refl.
  - destruct (reg !! function_key f) as [[raw|n]|] eqn:Hf.
    + destruct (extract_from_fp _ _ _ _ _ _ _ _) as [[n d]|e].
      * apply IH in Hrun. intros key m Hkey. apply Hrun.
        rewrite lookup_insert_ne; [done|]. intros <-. congruence.
      * injection Hrun as <- _. apply resolved_kept_refl.
    + by apply IH in Hrun.
    + injection Hrun as <- _. apply resolved_kept_refl.
Qed.

Lemma resolve_functions_app fuel deep_extract fs1 fs2 reg deeps :
  resolve_functions get_schema identifier features fuel deep_extract (fs1 ++ fs2) reg deeps =
  match resolve_functions get_schema identifier features fuel deep_extract fs1 reg deeps with
  | (reg1, Ok deeps1) => resolve_functions get_schema identifier features fuel deep_extract fs2 reg1 deeps1
  | (reg1, Err e) => (reg1, Err e)
  end.
Proof.
  revert reg deeps. induction fs1 as [|f fs1 IH]; intros reg deeps; simpl; [done|].
  destruct (reg !! function_key f) as [[raw|n]|]; [|done|done].
  by destruct (extract_from_fp _ _ _ _ _ _ _ _) as [[n d]|e].
Qed.

(** What holds of every Network [extract_from_fp] returns holds of every
    resolved entry. *)
Lemma resolve_functions_registry (Q : Network → Prop) fuel deep_extract fs :
  (∀ fp reg n d,
     extract_from_fp get_schema identifier features fuel fp reg deep_extract true
       = Ok (n, d) → Q n) →
  ∀ reg deeps reg' r,
  registry_Forall Q reg →
  resolve_functions get_schema identifier features fuel deep_extract fs reg deeps = (reg', r) → registry_Forall Q reg'.
Proof.
  intros Hfp. induction fs as [|f fs IH]; intros reg deeps reg' r Hreg Hrun;
    simpl in Hrun.
  - by injection Hrun as <- _.
  - destruct (reg !! function_key f) as [[raw|n]|] eqn:Hf.
    + destruct (extract_from_fp _ _ _ _ _ _ _ _) as [[n d]|e] eqn:Hext.
      * apply IH in Hrun; [done|]. intros key m.
        destruct (decide (function_key f = key)) as [<-|Hne].
        -- rewrite lookup_insert_eq. intros [= <-]. by eapply Hfp.
        -- rewrite lookup_insert_ne by done. apply Hreg.
      * by injection Hrun as <- _.
    + by apply IH in Hrun.
    + by injection Hrun as <- _.
Qed.

Lemma resolve_functions_yields (P : Network → Prop) fuel deep_extract fs :
  yields P (extract_from_fp get_schema identifier features fuel) →
  ∀ reg deeps reg' deeps',
  registry_Forall P reg → Forall P deeps →
  resolve_functions get_schema identifier features fuel deep_extract fs reg deeps = (reg', Ok deeps') → Forall P deeps'.
Proof.
  intros Hfp. induction fs as [|f fs IH]; intros reg deeps reg' deeps' Hreg Hd Hrun;
    simpl in Hrun.
  - by injection Hrun as _ <-.
  - destruct (reg !! function_key f) as [[raw|n]|] eqn:Hf; [| |done].
    + destruct (extract_from_fp _ _ _ _ _ _ _ _) as [[n d]|e] eqn:Hext; [|done].
      apply Hfp in Hext as [Hn Hds].
      apply IH in Hrun; [done| |].
      * intros key m.
        destruct (decide (function_key f = key)) as [<-|Hne].
        -- rewrite lookup_insert_eq. by intros [= <-].
        -- rewrite lookup_insert_ne by done. apply Hreg.
      * apply Forall_app. split; [done|]. by constructor.
    + apply IH in Hrun; [done|done|].
      apply Forall_app. split; [done|]. constructor; [|done]. by eapply Hreg.
Qed.

(** After the loop has run through, every function it met is resolved,
    and its Network is in the list. *)
Lemma resolve_functions_resolved fuel deep_extract fs : ∀ reg deeps reg' deeps' f,
  resolve_functions get_schema identifier features fuel deep_extract fs reg deeps = (reg', Ok deeps') →
  f ∈ fs →
  ∃ n, reg' !! function_key f = Some (Resolved n) ∧ n ∈ deeps'.
Proof.
  assert (Hgrow : ∀ fs reg deeps reg' deeps',
    resolve_functions get_schema identifier features fuel deep_extract fs reg deeps = (reg', Ok deeps') →
    ∀ n, n ∈ deeps → n ∈ deeps').
  { clear fs. induction fs as [|f fs IH]; intros reg deeps reg' deeps' Hrun n Hn;
      simpl in Hrun.
    - by injection Hrun as _ <-.
    - destruct (reg !! function_key f) as [[raw|m]|]; [| |done].
      + destruct (extract_from_fp _ _ _ _ _ _ _ _) as [[m d]|e]; [|done].
        eapply IH; [done|]. apply elem_of_app. by left.
      + eapply IH; [done|]. apply elem_of_app. by left. }
  induction fs as [|g fs IH]; intros reg deeps reg' deeps' f Hrun Hf;
    [by apply elem_of_nil in Hf|].
  simpl in Hrun.
  destruct (reg !! function_key g) as [[raw|m]|] eqn:Hg; [| |done].
  - destruct (extract_from_fp _ _ _ _ _ _ _ _) as [[m d]|e]; [|done].
    apply elem_of_cons in Hf as [->|Hf]; [|by eapply IH].
    exists m. split.
    + eapply resolve_functions_kept; [done|]. apply lookup_insert_eq.
    + eapply Hgrow; [done|]. apply elem_of_app. right. by left.
  - apply elem_of_cons in Hf as [->|Hf]; [|by eapply IH].
    exists m. split.
    + by eapply resolve_functions_kept.
    + eapply Hgrow; [done|]. apply elem_of_app. right. by left.
Qed.

End Registry.

(** ** Acyclicity of what is returned, and the failure on a cycle *)

Lemma acyclic_network_finish nodes lv sub fnc n deep :
  graph_closed (lv_graph lv) →
  finish_level nodes lv sub fnc = Ok (n, deep) → acyclic_network n.
Proof. apply finish_level_acyclic. Qed.

Lemma acyclic_network_order n :
  acyclic_network n → ∃ order, topological_order (nn_graph n) order.
Proof. intros [Hc Hdag]. by apply dag_topological_order. Qed.

Lemma yields_True {Proto : Type}
    (ex : Proto → registry → bool → bool → Result (Network * list Network)) :
  yields (λ _, True) ex.
Proof. intros p reg deep sub n d _. split; [done|]. by apply Forall_forall. Qed.

Lemma gp_first_pass_closed get_schema identifier features rec_gp gp reg deep lv :
  gp_first_pass get_schema identifier features rec_gp gp reg deep = Ok lv →
  graph_closed (lv_graph lv).
Proof.
  intros Hpass. unfold gp_first_pass in Hpass.
  apply bind_Ok in Hpass as (pm_info & _ & Hloop).
  enough (level_ok (λ _, True) lv) as [? _] by done.
  revert Hloop. apply for_enumerate_ind; [|apply level_ok_empty].
  intros i node s s' _ Hs. apply gp_node_step_ok; [apply yields_True|done].
Qed.

Lemma fp_first_pass_closed get_schema identifier features rec_gp rec_fp fp reg deep lv :
  fp_first_pass get_schema identifier features rec_gp rec_fp fp reg deep = Ok lv →
  graph_closed (lv_graph lv).
Proof.
  intros Hpass. unfold fp_first_pass in Hpass.
  enough (level_ok (λ _, True) lv) as [? _] by done.
  revert Hpass. apply for_enumerate_ind; [|apply level_ok_empty].
  intros i node s s' _ Hs. apply fp_node_step_ok; [apply yields_True|done].
Qed.

(** X9. Every Network that [extract_network] or [extract_networks] returns,
    the main one and every one in the list of discovered Networks, has a
    topological ordering of its vertices; and a level, of a graph or of a
    function body, fails on the acyclicity assert instead of returning a
    Network when the graph it has assembled, the vertices with the edges
    that the second pass did add, has a cycle. *)
Theorem extracted_networks_acyclic infer_shapes get_schema identifier features :
  (∀ fuel model n,
     extract_network infer_shapes get_schema identifier features fuel model = Ok n →
     ∃ order, topological_order (nn_graph n) order) ∧
  (∀ fuel model deep_extract n deeps,
     extract_networks infer_shapes get_schema identifier features fuel model
       deep_extract = Ok (n, deeps) →
     ∀ m, m ∈ n :: deeps → ∃ order, topological_order (nn_graph m) order) ∧
  (∀ fuel gp fp_networks deep_extract sub lv v,
     gp_first_pass get_schema identifier features
       (extract_from_gp get_schema identifier features fuel)
       gp fp_networks deep_extract = Ok lv →
     tc (edge (assembled_graph (gp_node gp) lv)) v v →
     extract_from_gp get_schema identifier features (S fuel) gp fp_networks
       deep_extract sub = Err AssertionError_not_DAG) ∧
  (∀ fuel fp fp_networks deep_extract sub lv v,
     fp_first_pass get_schema identifier features
       (extract_from_gp get_schema identifier features fuel)
       (extract_from_fp get_schema identifier features fuel)
       fp fp_networks deep_extract = Ok lv →
     tc (edge (assembled_graph (fn_node fp) lv)) v v →
     extract_from_fp get_schema identifier features (S fuel) fp fp_networks
       deep_extract sub = Err AssertionError_not_DAG).
Proof.
  pose proof (extract_from_gp_yields get_schema identifier features
                acyclic_network acyclic_network_finish) as Hgp.
  pose proof (extract_from_fp_yields get_schema identifier features
                acyclic_network acyclic_network_finish) as Hfp.
  repeat split.
  - intros fuel model n Hrun. unfold extract_network in Hrun.
    apply bind_Ok in Hrun as ([n' d] & Hrun & [= <-]).
    apply Hgp in Hrun as [Hn _]. by apply acyclic_network_order.
  - intros fuel model deep_extract n deeps Hrun m Hm.
    unfold extract_networks, run_extract_networks in Hrun.
    destruct (resolve_functions _ _ _ _ _ _ _ _) as [reg [ds|e]] eqn:Hres;
      [|done].
    simpl in Hrun. unfold extract_main in Hrun.
    apply bind_Ok in Hrun as ([n' d] & Hrun & [= <- <-]).
    apply Hgp in Hrun as [Hn Hd].
    eapply resolve_functions_yields in Hres;
      [|apply Hfp|apply seed_registry_Forall|constructor].
    apply acyclic_network_order.
    apply elem_of_cons in Hm as [->|Hm]; [done|].
    apply elem_of_app in Hm as [Hm|Hm].
    + by eapply (proj1 (Forall_forall _ _) Hres).
    + by eapply (proj1 (Forall_forall _ _) Hd).
  - intros fuel gp reg deep sub lv v Hpass Hcyc. simpl.
    unfold extract_from_gp_body. rewrite Hpass. simpl.
    eapply finish_level_cycle; [|done]. by eapply gp_first_pass_closed.
  - intros fuel fp reg deep sub lv v Hpass Hcyc. simpl.
    unfold extract_from_fp_body. rewrite Hpass. simpl.
    eapply finish_level_cycle; [|done]. by eapply fp_first_pass_closed.
Qed.

Lemma extracted_networks_acyclic_witness :
  ∃ n deeps,
    extract_networks sample_infer_shapes sample_get_schema sample_identifier
      sample_features 2 fan_out_model false = Ok (n, deeps) ∧
    (∀ m, m ∈ n :: deeps → ∃ order, topological_order (nn_graph m) order) ∧
    sample_fp 1 cyclic_function ∅ false true = Err AssertionError_not_DAG.
Proof.
  destruct (extracted_networks_acyclic sample_infer_shapes sample_get_schema
              sample_identifier sample_features) as (_ & Hall & _ & Hfp).
  eexists _, _. split; [vm_compute; reflexivity|]. split.
  - intros m Hm. eapply (Hall 2%nat fan_out_model false); [|exact Hm].
    vm_compute. reflexivity.
  - eapply (Hfp 0 cyclic_function ∅ false true _ "0").
    + vm_compute. reflexivity.
    + apply tc_l with "1"; [|apply tc_once]; eexists; vm_compute; reflexivity.
Defined.

(** ** Function bodies *)

Lemma one_function_run :
  sample_run 2 one_function_model false
  = (one_function_registry,
     Ok (one_function_returned.1, one_function_returned.2)).
Proof.
  vm_cast_no_check
    (eq_refl (one_function_registry,
              @Ok (Network * list Network)
                (one_function_returned.1, one_function_returned.2))).
Qed.

(** C6, as the code has it. After a successful [extract_networks], every
    function of the model is resolved to a Network that is in the returned
    list and is tagged [is_sub = true] and [is_fnc = true]: both call sites
    of [extract_from_fp] pass [is_sub=True]. *)
Theorem function_bodies_tagged_sub_and_fnc infer_shapes get_schema identifier
    features fuel model deep_extract :
  function_bodies_tagged true true infer_shapes get_schema identifier features
    fuel model deep_extract.
Proof.
  intros reg network deeps Hrun f Hf. unfold run_extract_networks in Hrun.
  destruct (resolve_functions _ _ _ _ _ _ _ _) as [reg' [ds|e]] eqn:Hres;
    [|by injection Hrun].
  injection Hrun as -> Hmain. unfold extract_main in Hmain.
  apply bind_Ok in Hmain as ([n' d] & _ & [= _ <-]).
  destruct (resolve_functions_resolved _ _ _ _ _ _ _ _ _ _ f Hres Hf)
    as (n & Hn & Hin).
  exists n. split; [done|]. split; [apply elem_of_app; by left|].
  eapply (resolve_functions_registry get_schema identifier features
            (λ n, is_sub n = true ∧ is_fnc n = true)) in Hres; [by eapply Hres| |].
  - intros fp r m d0 Hfp. destruct fuel as [|fuel]; [done|]. simpl in Hfp.
    unfold extract_from_fp_body in Hfp.
    apply bind_Ok in Hfp as (lv & _ & Hfin).
    by apply finish_level_Ok in Hfin as (_ & _ & _ & _ & ? & ? & _).
  - apply seed_registry_Forall.
Qed.

Lemma function_bodies_tagged_sub_and_fnc_witness :
  ∃ n, one_function_registry !! function_key function_G = Some (Resolved n) ∧
       n ∈ one_function_returned.2 ∧ is_sub n = true ∧ is_fnc n = true.
Proof.
  apply (function_bodies_tagged_sub_and_fnc sample_infer_shapes
           sample_get_schema sample_identifier sample_features 2
           one_function_model false one_function_registry
           one_function_returned.1 one_function_returned.2 one_function_run
           function_G).
  apply list_elem_of_here.
Defined.

(** C6, as the specification states it, fails: the body of [G] is tagged
    [is_sub = true]. *)
Lemma function_body_not_tagged_top_level :
  ¬ function_bodies_tagged false true sample_infer_shapes sample_get_schema
      sample_identifier sample_features 2 one_function_model false.
Proof.
  intros Hclaim.
  destruct (Hclaim _ _ _ one_function_run function_G (list_elem_of_here _ _))
    as (n & Hn & _ & Hsub & _).
  assert (entry_is_sub one_function_registry (function_key function_G)
          = Some true) as Htag
    by (vm_cast_no_check (eq_refl (Some true))).
  unfold entry_is_sub in Htag. rewrite Hn, Hsub in Htag. discriminate Htag.
Qed.

(** ** Failure on a cycle and the registry *)

(** C9. When [extract_networks] fails on the acyclicity assert, at a
    function body or at the main graph, every registry entry that the loop
    over the functions had resolved before is still resolved, to the same
    Network, in the registry the failed call leaves behind. *)
Theorem cyclic_failure_keeps_resolved infer_shapes get_schema identifier features
    fuel model deep_extract fs1 fs2 reg1 deeps1 reg2 :
  functions (infer_shapes (onnx_model model)) = fs1 ++ fs2 →
  resolve_functions get_schema identifier features fuel deep_extract fs1
    (seed_registry (fs1 ++ fs2)) [] = (reg1, Ok deeps1) →
  run_extract_networks infer_shapes get_schema identifier features fuel model
    deep_extract = (reg2, Err AssertionError_not_DAG) →
  resolved_kept reg1 reg2.
Proof.
  intros Hfs Hfirst Hrun. unfold run_extract_networks in Hrun.
  rewrite Hfs, resolve_functions_app, Hfirst in Hrun.
  destruct (resolve_functions _ _ _ _ _ fs2 _ _) as [reg' [ds|e]] eqn:Hrest.
  - injection Hrun as -> _. by eapply resolve_functions_kept.
  - injection Hrun as -> _. by eapply resolve_functions_kept.
Qed.

Lemma cyclic_failure_keeps_resolved_witness :
  resolved_kept cyclic_registry_before cyclic_registry_after ∧
  ∃ n, cyclic_registry_before !! ("G", "custom") = Some (Resolved n).
Proof.
  split.
  - apply (cyclic_failure_keeps_resolved sample_infer_shapes sample_get_schema
             sample_identifier sample_features 2 cyclic_second_model true
             [function_G] [cyclic_function] cyclic_registry_before
             cyclic_deeps_before cyclic_registry_after).
    + reflexivity.
    + vm_cast_no_check
        (eq_refl (cyclic_registry_before, @Ok (list Network) cyclic_deeps_before)).
    + vm_cast_no_check
        (eq_refl (cyclic_registry_after,
                  @Err (Network * list Network) AssertionError_not_DAG)).
  - eexists. vm_compute. reflexivity.
Defined.

(** ** Nodes outside the built-in domains *)

Lemma gp_raw_loop io_info nid l : ∀ start x2x named,
  ∃ x2x' named',
    for_enumerate (gp_raw_step io_info nid) start l (x2x, named) = Ok (x2x', named') ∧
    ∀ name, named' !! name =
      if decide (name ∈ l) then from_option Some (named !! name) (io_info !! name)
      else named !! name.
Proof.
  induction l as [|x l IH]; intros start x2x named.
  - exists x2x, named. split; [done|]. intros name.
    case_decide as Hin; [by apply elem_of_nil in Hin | done].
  - rewrite for_enumerate_cons.
    destruct (io_info !! x) as [d|] eqn:Hx.
    + assert (gp_raw_step io_info nid start x (x2x, named)
              = Ok (<[x := (nid, x, Z.of_nat start)]> x2x, <[x := d]> named)) as ->.
      { unfold gp_raw_step. by rewrite Hx. }
      destruct (IH (S start) (<[x := (nid, x, Z.of_nat start)]> x2x) (<[x := d]> named))
        as (x2x' & named' & Hrun & Hnamed).
      exists x2x', named'. split; [done|]. intros name. rewrite Hnamed.
      destruct (decide (name = x)) as [->|Hne].
      * rewrite lookup_insert_eq, Hx.
        repeat case_decide; try done; exfalso; set_solver.
      * rewrite lookup_insert_ne by done.
        repeat case_decide; try done; exfalso; set_solver.
    + assert (gp_raw_step io_info nid start x (x2x, named) = Ok (x2x, named)) as ->.
      { unfold gp_raw_step. by rewrite Hx. }
      destruct (IH (S start) x2x named) as (x2x' & named' & Hrun & Hnamed).
      exists x2x', named'. split; [done|]. intros name. rewrite Hnamed.
      destruct (decide (name = x)) as [->|Hne].
      * rewrite Hx. repeat case_decide; try done.
      * repeat case_decide; try done; exfalso; set_solver.
Qed.

Lemma fp_raw_loop nid l : ∀ start x2x named,
  ∃ x2x' named',
    for_enumerate (fp_raw_step nid) start l (x2x, named) = Ok (x2x', named') ∧
    ∀ name, named' !! name =
      if decide (name ∈ l) then Some (JStr name) else named !! name.
Proof.
  induction l as [|x l IH]; intros start x2x named.
  - exists x2x, named. split; [done|]. intros name.
    case_decide as Hin; [by apply elem_of_nil in Hin | done].
  - rewrite for_enumerate_cons.
    destruct (IH (S start) (<[x := (nid, x, Z.of_nat start)]> x2x) (<[x := JStr x]> named))
      as (x2x' & named' & Hrun & Hnamed).
    exists x2x', named'. split; [done|]. intros name. rewrite Hnamed.
    destruct (decide (name = x)) as [->|Hne].
    + rewrite lookup_insert_eq. repeat case_decide; try done; exfalso; set_solver.
    + rewrite lookup_insert_ne by done.
      repeat case_decide; try done; exfalso; set_solver.
Qed.

(** C10. A node whose domain is not a built-in one and whose
    (type, domain) pair is not in the registry never makes its step of the
    node loop fail, in a graph and in a function body alike: the step stores
    a Node with no attributes and no parameters, whose operands and results
    are keyed by the raw value names (in a graph, those that have a type
    annotation; in a function body, all of them). *)
Theorem unregistered_node_is_normalized get_schema identifier features :
  (∀ rec_gp fp_networks deep_extract pm_info io_info nid node lv,
     node_domain node ∉ ONNXOperatorDomain →
     fp_networks !! (node_op_type node, node_domain node) = None →
     ∃ lv' node',
       gp_node_step get_schema identifier features rec_gp fp_networks
         deep_extract pm_info io_info nid node lv = Ok lv' ∧
       lv_nodes lv' !! pretty nid = Some node' ∧
       operator_type node' = node_op_type node ∧
       operator_domain node' = node_domain node ∧
       attributes node' = ∅ ∧ parameters node' = ∅ ∧
       (∀ name, operands node' !! name =
          if decide (name ∈ node_input node) then io_info !! name else None) ∧
       (∀ name, results node' !! name =
          if decide (name ∈ node_output node) then io_info !! name else None)) ∧
  (∀ rec_gp rec_fp fp_networks deep_extract nid node lv,
     node_domain node ∉ ONNXOperatorDomain →
     fp_networks !! (node_op_type node, node_domain node) = None →
     ∃ lv' node',
       fp_node_step get_schema identifier features rec_gp rec_fp fp_networks
         deep_extract nid node lv = Ok lv' ∧
       lv_nodes lv' !! pretty nid = Some node' ∧
       operator_type node' = node_op_type node ∧
       operator_domain node' = node_domain node ∧
       attributes node' = ∅ ∧ parameters node' = ∅ ∧
       (∀ name, operands node' !! name =
          if decide (name ∈ node_input node) then Some (JStr name) else None) ∧
       (∀ name, results node' !! name =
          if decide (name ∈ node_output node) then Some (JStr name) else None)).
Proof.
  split.
  - intros rec_gp reg deep pm_info io_info nid node lv Hdom Hreg.
    unfold gp_node_step. rewrite bool_decide_eq_false_2 by done.
    unfold gp_function_node. rewrite Hreg. simpl.
    destruct (gp_raw_loop io_info (pretty nid) (node_input node) 0 (lv_i2x lv) ∅)
      as (i2x & operands & -> & Hoperands).
    destruct (gp_raw_loop io_info (pretty nid) (node_output node) 0 (lv_o2x lv) ∅)
      as (o2x & results & -> & Hresults).
    simpl. eexists _, _. split; [done|]. simpl.
    rewrite lookup_insert_eq. repeat split; try done.
    + intros name. rewrite Hoperands, lookup_empty.
      by destruct (decide _), (io_info !! name).
    + intros name. rewrite Hresults, lookup_empty.
      by destruct (decide _), (io_info !! name).
  - intros rec_gp rec_fp reg deep nid node lv Hdom Hreg.
    unfold fp_node_step. rewrite bool_decide_eq_false_2 by done.
    unfold fp_function_node. rewrite Hreg. simpl.
    destruct (fp_raw_loop (pretty nid) (node_input node) 0 (lv_i2x lv) ∅)
      as (i2x & operands & -> & Hoperands).
    destruct (fp_raw_loop (pretty nid) (node_output node) 0 (lv_o2x lv) ∅)
      as (o2x & results & -> & Hresults).
    simpl. eexists _, _. split; [done|]. simpl.
    rewrite lookup_insert_eq. by repeat split.
Qed.

Lemma unregistered_node_is_normalized_witness :
  ∃ lv' node',
    gp_node_step sample_get_schema sample_identifier sample_features
      (sample_gp 0) ∅ false ∅ (io_info_of fan_out_graph) 0 foreign_node
      empty_Level = Ok lv' ∧
    lv_nodes lv' !! "0" = Some node' ∧
    attributes node' = ∅ ∧ parameters node' = ∅ ∧
    operands node' !! "x" = Some (JDict [("tensorType", JStr "x")]) ∧
    operands node' !! "hidden" = None.
Proof.
  destruct (unregistered_node_is_normalized sample_get_schema sample_identifier
              sample_features) as [Hgp _].
  destruct (Hgp (sample_gp 0) ∅ false ∅ (io_info_of fan_out_graph) 0 foreign_node
              empty_Level)
    as (lv' & node' & Hstep & Hnode & _ & _ & Hattr & Hpar & Hop & _).
  - vm_compute. intros H. by repeat (apply elem_of_cons in H as [H|H]; [done|]);
      apply elem_of_nil in H.
  - done.
  - exists lv', node'. by rewrite !Hop.
Defined.

(** ** Slots of a node that supplies no more values than the schema has *)

Lemma string_app_empty_r (s : string) : s +:+ "" = s.
Proof.
  induction s as [|c s IH]; [done|].
  change (String c (s +:+ "") = String c s). by rewrite IH.
Qed.

Lemma py_index_lookup {A : Type} (l : list A) (i : nat) (x : A) :
  l !! i = Some x → py_index l (Z.of_nat i) = Ok x.
Proof.
  intros Hi. unfold py_index. cbv zeta.
  pose proof (lookup_lt_Some _ _ _ Hi) as Hlt.
  destruct (decide (Z.of_nat i < 0)%Z) as [?|_]; [lia|].
  destruct (decide (0 ≤ Z.of_nat i < Z.of_nat (length l))%Z) as [_|?]; [|lia].
  by rewrite Nat2Z.id, Hi.
Qed.

Lemma resolve_slot_within slots (i : nat) s :
  slots !! i = Some s →
  resolve_slot slots (Z.of_nat i) 0 = Ok (param_name s, Z.of_nat i, 0).
Proof.
  intros Hi. pose proof (lookup_lt_Some _ _ _ Hi) as Hlt.
  unfold resolve_slot, overflows_variadic, len.
  rewrite decide_False by lia. cbn [mbind Result_bind].
  unfold slot_name. rewrite (py_index_lookup _ _ _ Hi). cbn [mbind Result_bind].
  rewrite decide_True by done. by rewrite string_app_empty_r.
Qed.

Lemma slot_names_differ slots i j s s' :
  NoDup (param_name <$> slots) →
  slots !! i = Some s → slots !! j = Some s' → i ≠ j →
  param_name s ≠ param_name s'.
Proof.
  intros Hnd Hi Hj Hne Heq. apply Hne.
  apply (NoDup_lookup _ i j (param_name s) Hnd).
  - by rewrite list_lookup_fmap, Hi.
  - by rewrite list_lookup_fmap, Hj, Heq.
Qed.

Section WithinSchema.

Variable slots : list FormalParameter.
Hypothesis slots_NoDup : NoDup (param_name <$> slots).

(** The loop over the inputs that are initializers. *)
Lemma gp_parameter_loop operator pm_info l :
  schema_inputs operator = slots →
  ∀ start (parameters : gmap string json),
  (start + length l ≤ length slots)%nat →
  (∀ (j : nat) s, (start ≤ j)%nat → slots !! j = Some s → parameters !! param_name s = None) →
  ∃ parameters',
    for_enumerate (gp_parameter_step operator pm_info) start l (0, parameters)
      = Ok (0, parameters') ∧
    ∀ (j : nat) s, slots !! j = Some s →
      parameters' !! param_name s =
        if decide (start ≤ j)%nat then l !! (j - start) ≫= (pm_info !!.)
        else parameters !! param_name s.
Proof.
  intros Hop. induction l as [|x l IH]; intros start parameters Hlen Hfree.
  - exists parameters. split; [done|]. intros j s Hj.
    case_decide; [|done]. rewrite lookup_nil. simpl. by eapply Hfree.
  - simpl in Hlen. rewrite for_enumerate_cons.
    destruct (lookup_lt_is_Some_2 slots start) as [s0 Hs0]; [lia|].
    set (parameters1 := match pm_info !! x with
                        | Some d => <[param_name s0 := d]> parameters
                        | None => parameters
                        end).
    assert (gp_parameter_step operator pm_info start x (0, parameters)
            = Ok (0, parameters1)) as ->.
    { unfold gp_parameter_step, parameters1.
      destruct (pm_info !! x) as [d|]; [|done].
      by rewrite Hop, (resolve_slot_within _ _ _ Hs0). }
    destruct (IH (S start) parameters1) as (parameters' & Hrun & Hfinal); [lia| |].
    { intros j s Hj Hs. unfold parameters1.
      destruct (pm_info !! x) as [d|]; [|apply (Hfree j); [lia|done]].
      rewrite lookup_insert_ne; [apply (Hfree j); [lia|done]|].
      apply (slot_names_differ slots start j); [done..|lia]. }
    exists parameters'. split; [done|]. intros j s Hj. rewrite (Hfinal j s Hj).
    destruct (decide (j = start)) as [->|Hne].
    + rewrite decide_False by lia. rewrite decide_True by lia.
      rewrite Nat.sub_diag. simpl. rewrite Hs0 in Hj. injection Hj as ->.
      unfold parameters1. destruct (pm_info !! x) as [d|].
      * by rewrite lookup_insert_eq.
      * by apply (Hfree start).
    + repeat case_decide; try lia.
      * by replace (j - start) with (S (j - S start)) by lia.
      * unfold parameters1. destruct (pm_info !! x) as [d|]; [|done].
        rewrite lookup_insert_ne; [done|].
        apply (slot_names_differ slots start j); [done..|lia].
Qed.

(** The loop over the inputs, or outputs, that are annotated. *)
Lemma gp_slot_loop io_info nid l :
  ∀ start (x2x : slot_table) (named : gmap string json),
  (start + length l ≤ length slots)%nat →
  (∀ (j : nat) s, (start ≤ j)%nat → slots !! j = Some s → named !! param_name s = None) →
  ∃ x2x' named',
    for_enumerate (gp_slot_step slots io_info nid) start l (0, x2x, named)
      = Ok (0, x2x', named') ∧
    ∀ (j : nat) s, slots !! j = Some s →
      named' !! param_name s =
        if decide (start ≤ j)%nat then l !! (j - start) ≫= (io_info !!.)
        else named !! param_name s.
Proof.
  induction l as [|x l IH]; intros start x2x named Hlen Hfree.
  - exists x2x, named. split; [done|]. intros j s Hj.
    case_decide; [|done]. rewrite lookup_nil. simpl. by eapply Hfree.
  - simpl in Hlen. rewrite for_enumerate_cons.
    destruct (lookup_lt_is_Some_2 slots start) as [s0 Hs0]; [lia|].
    set (named1 := match io_info !! x with
                   | Some d => <[param_name s0 := d]> named
                   | None => named
                   end).
    set (x2x1 := match io_info !! x with
                 | Some d => <[x := (nid, param_name s0, Z.of_nat start)]> x2x
                 | None => x2x
                 end).
    assert (gp_slot_step slots io_info nid start x (0, x2x, named)
            = Ok (0, x2x1, named1)) as ->.
    { unfold gp_slot_step, named1, x2x1, len.
      rewrite Z.min_l by lia.
      destruct (io_info !! x) as [d|]; [|done].
      by rewrite (resolve_slot_within _ _ _ Hs0). }
    destruct (IH (S start) x2x1 named1) as (x2x' & named' & Hrun & Hfinal); [lia| |].
    { intros j s Hj Hs. unfold named1.
      destruct (io_info !! x) as [d|]; [|apply (Hfree j); [lia|done]].
      rewrite lookup_insert_ne; [apply (Hfree j); [lia|done]|].
      apply (slot_names_differ slots start j); [done..|lia]. }
    exists x2x', named'. split; [done|]. intros j s Hj. rewrite (Hfinal j s Hj).
    destruct (decide (j = start)) as [->|Hne].
    + rewrite decide_False by lia. rewrite decide_True by lia.
      rewrite Nat.sub_diag. simpl. rewrite Hs0 in Hj. injection Hj as ->.
      unfold named1. destruct (io_info !! x) as [d|].
      * by rewrite lookup_insert_eq.
      * by apply (Hfree start).
    + repeat case_decide; try lia.
      * by replace (j - start) with (S (j - S start)) by lia.
      * unfold named1. destruct (io_info !! x) as [d|]; [|done].
        rewrite lookup_insert_ne; [done|].
        apply (slot_names_differ slots start j); [done..|lia].
Qed.

End WithinSchema.

(** ** Parameters and operands *)

(** C7, as the code has it. For a built-in node of a graph that supplies
    no more inputs than its schema declares input slots, the input at
    position [i] is recorded in [parameters], under the name of slot [i],
    exactly when it is an initializer, and in [operands], under the same
    name, exactly when it has a type annotation. Nothing keeps an
    initializer out of [operands]: an input that is both is in both. *)
Theorem inputs_recorded_by_binding get_schema identifier rec_gp
    fp_networks deep_extract pm_info io_info nid node lv operator
    node' deep' i2x o2x :
  get_schema (node_op_type node) (node_domain node) = Some operator →
  NoDup (param_name <$> schema_inputs operator) →
  (length (node_input node) ≤ length (schema_inputs operator))%nat →
  gp_builtin_node get_schema identifier rec_gp fp_networks deep_extract
    pm_info io_info nid node lv = Ok (node', deep', i2x, o2x) →
  ∀ i input s,
    node_input node !! i = Some input →
    schema_inputs operator !! i = Some s →
    parameters node' !! param_name s = pm_info !! input ∧
    operands node' !! param_name s = io_info !! input.
Proof.
  intros Hschema Hnd Hlen Hrun i input s Hi Hs.
  unfold gp_builtin_node in Hrun. rewrite Hschema in Hrun. simpl in Hrun.
  apply bind_Ok in Hrun as ([attrs deep1] & _ & Hrun).
  destruct (gp_parameter_loop (schema_inputs operator) Hnd operator pm_info
              (node_input node) eq_refl 0 ∅) as (parameters' & Hpar & Hparameters);
    [done|done|].
  destruct (gp_slot_loop (schema_inputs operator) Hnd io_info nid
              (node_input node) 0 (lv_i2x lv) ∅) as (i2x' & operands' & Hop & Hoperands);
    [done|done|].
  rewrite Hpar in Hrun. simpl in Hrun. rewrite Hop in Hrun. simpl in Hrun.
  apply bind_Ok in Hrun as ([[? ?] ?] & _ & [= <- _ _ _]). simpl.
  rewrite (Hparameters i s Hs), (Hoperands i s Hs). simpl.
  by rewrite Nat.sub_0_r, Hi.
Qed.

Lemma inputs_recorded_by_binding_witness :
  ∃ node' deep' i2x o2x,
    gp_builtin_node sample_get_schema sample_identifier (sample_gp 0) ∅ false
      {["w" := JStr "constant"]} (io_info_of shared_name_graph) "0"
      (relu "w" "y") empty_Level = Ok (node', deep', i2x, o2x) ∧
    parameters node' !! param_name (slot "X" Single)
      = ({["w" := JStr "constant"]} : gmap string json) !! "w" ∧
    operands node' !! param_name (slot "X" Single)
      = io_info_of shared_name_graph !! "w".
Proof.
  eexists _, _, _, _. split; [vm_compute; reflexivity|].
  refine (inputs_recorded_by_binding sample_get_schema sample_identifier
            (sample_gp 0) ∅ false {["w" := JStr "constant"]}
            (io_info_of shared_name_graph) "0" (relu "w" "y") empty_Level
            {| schema_inputs := [slot "X" Single];
               schema_outputs := [slot "Y" Single] |}
            _ _ _ _ eq_refl (NoDup_singleton "X") (le_n 1) _
            0%nat "w" (slot "X" Single) eq_refl eq_refl).
  vm_compute. reflexivity.
Defined.

(** C7, as the specification states it, fails: [w] is an initializer that
    is also a graph input, and the node that reads it has a parameters
    entry and an operands entry for it. *)
Lemma initializer_input_in_both :
  ¬ (∀ pm_info node' deep' i2x o2x,
       pm_info_of (gp_initializer shared_name_graph) = Ok pm_info →
       gp_builtin_node sample_get_schema sample_identifier (sample_gp 0) ∅ false
         pm_info (io_info_of shared_name_graph) "0" (relu "w" "y") empty_Level
         = Ok (node', deep', i2x, o2x) →
       never_in_both {| schema_inputs := [slot "X" Single];
                        schema_outputs := [slot "Y" Single] |}
         (relu "w" "y") node').
Proof.
  intros Hclaim.
  refine (Hclaim _ _ _ _ _ _ _ 0%nat "w" (slot "X" Single) _ _ _).
  - vm_compute. reflexivity.
  - vm_compute. reflexivity.
  - reflexivity.
  - reflexivity.
  - split; eexists; vm_compute; reflexivity.
Qed.

(** ** The defects the claims C1, C2, C3, C4 and C8 run into *)

(** C1. On a graph where node 0 produces [v] and the nodes 1 and 2 both
    consume it, the code returns a Network with the single edge from 0 to
    2: [i2x] keeps one consumer per value name, the last one. *)
Theorem fan_out_keeps_one_edge :
  ∃ n, sample_gp 1 fan_out_graph ∅ false false = Ok (n, []) ∧
       edges (nn_graph n) = [("0", "2")] ∧
       g_adj (nn_graph n) !! ("0", "1") = None.
Proof. eexists. split; [vm_compute; reflexivity|]. by vm_compute. Qed.

(** C2. With the input slots [a] and [b], [b] variadic, and four
    annotated inputs, a node of a graph gets the operand names [a] and [b]
    only (the clamp runs before the variadic test, which then never fires),
    and the same node in a function body gets [a], [b], [b_1], [b_2] but
    its one result is named [y_2]: the result loop of [extract_from_fp]
    goes on counting from the operand loop. *)
Theorem variadic_names_in_graph_and_function :
  (∃ n node', sample_gp 1 accumulate_graph ∅ false false = Ok (n, []) ∧
     nn_nodes n !! "0" = Some node' ∧
     operands node' !! "a" = Some (JDict [("tensorType", JStr "x0")]) ∧
     operands node' !! "b" = Some (JDict [("tensorType", JStr "x3")]) ∧
     operands node' !! "b_1" = None ∧ operands node' !! "b_2" = None) ∧
  (∃ n node', sample_fp 1 accumulate_function ∅ false true = Ok (n, []) ∧
     nn_nodes n !! "0" = Some node' ∧
     operands node' !! "a" = Some (JStr "x0") ∧
     operands node' !! "b" = Some (JStr "x1") ∧
     operands node' !! "b_1" = Some (JStr "x2") ∧
     operands node' !! "b_2" = Some (JStr "x3") ∧
     results node' !! "y" = None ∧ results node' !! "y_2" = Some (JStr "s")).
Proof.
  split.
  - eexists _, _. split; [vm_compute; reflexivity|].
    split; [vm_compute; reflexivity|]. by vm_compute.
  - eexists _, _. split; [vm_compute; reflexivity|].
    split; [vm_compute; reflexivity|]. by vm_compute.
Qed.

(** C3. When [F] calls [G] and [G] is declared after [F], the call of
    [extract_networks] raises NameError, and the registry still holds [G]
    as the raw function, not as a Network. *)
Theorem forward_call_raises_NameError :
  extract_networks sample_infer_shapes sample_get_schema sample_identifier
    sample_features 3 forward_call_model false = Err NameError ∧
  (sample_run 3 forward_call_model false).1 !! ("G", "custom")
    = Some (Raw function_G).
Proof. split; by vm_compute. Qed.

(** C4. A level whose producer/consumer relation has a cycle can pass the
    acyclicity assert. Among [hidden_cycle_nodes] node 0 feeds node 1 and
    node 1 feeds node 0, and yet [extract_from_gp] and [extract_from_fp]
    both return a Network, with the edges 0 -> 1 and 1 -> 2 only: node 2
    consumes [v1] after node 0 does, [i2x] keeps the last consumer of a
    value name, and so the feedback edge from 1 to 0 is never added. *)
Theorem feedback_edge_passes_the_assert :
  feeds hidden_cycle_nodes "0" "1" ∧ feeds hidden_cycle_nodes "1" "0" ∧
  (∃ n, sample_gp 1 hidden_cycle_graph ∅ false false = Ok (n, []) ∧
        is_directed_acyclic_graph (nn_graph n) = true ∧
        is_Some (g_adj (nn_graph n) !! ("0", "1")) ∧
        is_Some (g_adj (nn_graph n) !! ("1", "2")) ∧
        g_adj (nn_graph n) !! ("1", "0") = None ∧
        length (edges (nn_graph n)) = 2%nat) ∧
  (∃ n, sample_fp 1 hidden_cycle_function ∅ false true = Ok (n, []) ∧
        is_directed_acyclic_graph (nn_graph n) = true ∧
        is_Some (g_adj (nn_graph n) !! ("0", "1")) ∧
        is_Some (g_adj (nn_graph n) !! ("1", "2")) ∧
        g_adj (nn_graph n) !! ("1", "0") = None ∧
        length (edges (nn_graph n)) = 2%nat).
Proof.
  split; [|split; [|split]].
  - exists 0%nat, 1%nat, (Build_NodeProto "Accumulate" "" ["x"; "v1"] ["v0"] []),
      (relu "v0" "v1"), "v0".
    repeat split; try reflexivity; apply list_elem_of_here.
  - exists 1%nat, 0%nat, (relu "v0" "v1"),
      (Build_NodeProto "Accumulate" "" ["x"; "v1"] ["v0"] []), "v1".
    repeat split; try reflexivity;
      [apply list_elem_of_here | apply list_elem_of_further, list_elem_of_here].
  - eexists. split; [vm_compute; reflexivity|].
    repeat split; try (vm_compute; reflexivity); eexists; vm_compute; reflexivity.
  - eexists. split; [vm_compute; reflexivity|].
    repeat split; try (vm_compute; reflexivity); eexists; vm_compute; reflexivity.
Qed.

(** C8. A Relu node with two inputs, the second an initializer, makes
    [extract_from_gp] raise IndexError in the parameter loop, and the same
    node in a function body makes [extract_from_fp] raise IndexError in the
    operand loop: neither loop clamps the index. *)
Theorem overflow_raises_IndexError :
  sample_gp 1 overflow_graph ∅ false false = Err IndexError ∧
  sample_fp 1 overflow_function ∅ false true = Err IndexError.
Proof. split; by vm_compute. Qed.

(** ** Loops again: extensionality and splitting *)

Lemma for_each_ext {A St : Type} (f g : A → St → Result St) l :
  (∀ x s, f x s = g x s) → ∀ s, for_each f l s = for_each g l s.
Proof.
  intros Hfg. induction l as [|x l IH]; intros s; simpl; [done|].
  rewrite Hfg. destruct (g x s); simpl; [apply IH | done].
Qed.

Lemma for_enumerate_ext {A St : Type} (f g : nat → A → St → Result St) l :
  (∀ i x s, f i x s = g i x s) →
  ∀ start s, for_enumerate f start l s = for_enumerate g start l s.
Proof.
  intros Hfg. induction l as [|x l IH]; intros start s; simpl; [done|].
  rewrite Hfg. destruct (g start x s); simpl; [apply IH | done].
Qed.

Lemma for_each_app {A St : Type} (f : A → St → Result St) l1 l2 s :
  for_each f (l1 ++ l2) s = for_each f l1 s ≫= for_each f l2.
Proof.
  revert s. induction l1 as [|x l1 IH]; intros s; simpl; [done|].
  destruct (f x s); simpl; [apply IH | done].
Qed.

Lemma for_enumerate_app {A St : Type} (f : nat → A → St → Result St) l1 l2 :
  ∀ start s,
  for_enumerate f start (l1 ++ l2) s =
  for_enumerate f start l1 s ≫= for_enumerate f (start + length l1) l2.
Proof.
  induction l1 as [|x l1 IH]; intros start s; simpl.
  - by rewrite Nat.add_0_r.
  - destruct (f start x s); simpl; [|done].
    rewrite IH. by rewrite Nat.add_succ_r.
Qed.

(** ** Graph-valued attributes *)

Section Attributes.

Variable get_schema : string → string → option OpSchema.
Variable identifier : Network → string.
Variable features : Node → json.

#[local] Set Default Proof Using "Type".

(** Without deep extraction no sub-graph is handed to the extractor. *)
Lemma extract_graphs_shallow (rec_gp : Extractor GraphProto) fp_networks
    attribute :
  extract_graphs rec_gp fp_networks false attribute = Ok ([], []).
Proof. done. Qed.

Lemma materialize_shallow (rec1 rec2 : Extractor GraphProto) fp_networks
    attribute st :
  materialize identifier rec1 fp_networks false attribute st =
  materialize identifier rec2 fp_networks false attribute st.
Proof. done. Qed.

Lemma gp_node_step_shallow (rec1 rec2 : Extractor GraphProto) fp_networks
    pm_info io_info nid node lv :
  gp_node_step get_schema identifier features rec1 fp_networks false
    pm_info io_info nid node lv =
  gp_node_step get_schema identifier features rec2 fp_networks false
    pm_info io_info nid node lv.
Proof. done. Qed.

Lemma extract_from_gp_shallow fuel gp fp_networks sub :
  extract_from_gp get_schema identifier features (S fuel) gp fp_networks false sub
  = extract_from_gp get_schema identifier features 1 gp fp_networks false sub.
Proof. done. Qed.

(** With deep extraction every sub-graph of a graph-valued attribute is
    extracted, in order, and what it discovers is collected. *)
Lemma extract_graphs_loop (rec_gp : Extractor GraphProto) fp_networks gs :
  ∀ xs0 ds0 xs ds,
  for_each (λ attribute_g '(all_extracted, all_deep_extracted),
      '(extracted, deep_extracted) ← rec_gp attribute_g fp_networks true true;
      Ok (all_extracted ++ [extracted], all_deep_extracted ++ deep_extracted))
    gs (xs0, ds0) = Ok (xs, ds) →
  ∃ xs', xs = xs0 ++ xs' ∧ ds0 ⊆ ds ∧
    Forall2 (λ g s, ∃ d, rec_gp g fp_networks true true = Ok (s, d) ∧ d ⊆ ds)
      gs xs'.
Proof.
  drop_unused.
  induction gs as [|g gs IH]; intros xs0 ds0 xs ds Hrun; simpl in Hrun.
  - injection Hrun as <- <-. exists []. by rewrite app_nil_r.
  - apply bind_Ok in Hrun as ([xs1 ds1] & Hstep & Hrun).
    apply bind_Ok in Hstep as ([x d] & Hx & [= <- <-]).
    apply IH in Hrun as (xs' & -> & Hds & Hall).
    exists (x :: xs'). split; [by rewrite <- (assoc_L (++))|].
    split; [set_solver|]. constructor; [|done].
    exists d. split; [done | set_solver].
Qed.

Lemma extract_graphs_deep rec_gp fp_networks attribute xs ds :
  graph_valued attribute →
  extract_graphs rec_gp fp_networks true attribute = Ok (xs, ds) →
  Forall2 (λ g s, ∃ d, rec_gp g fp_networks true true = Ok (s, d) ∧ d ⊆ ds)
    (sub_graphs attribute) xs.
Proof.
  drop_unused.
  intros Hkind Hrun. unfold extract_graphs, sub_graphs in *.
  destruct Hkind as [Hkind|Hkind]; rewrite Hkind in *; simpl in Hrun.
  - apply bind_Ok in Hrun as ([xs0 ds0] & Hx & [= <- <-]).
    apply bind_Ok in Hx as ([x d] & Hx & [= <- <-]).
    constructor; [|constructor]. by exists d.
  - by apply extract_graphs_loop in Hrun as (xs' & -> & _ & Hall).
Qed.

(** One step of the attribute loop: the name it writes and what it does
    to the list of discovered Networks. *)
Lemma materialize_step rec_gp fp_networks deep_extract attribute attrs deep
    attrs' deep' :
  materialize identifier rec_gp fp_networks deep_extract attribute (attrs, deep)
    = Ok (attrs', deep') →
  deep ⊆ deep' ∧
  ∀ name, name ≠ attr_name attribute → attrs' !! name = attrs !! name.
Proof.
  drop_unused.
  unfold materialize.
  destruct (bool_decide _ || bool_decide _).
  - intros Hrun. apply bind_Ok in Hrun as ([xs ds] & _ & [= <- <-]).
    split; [set_solver|]. intros name Hne. by rewrite lookup_insert_ne.
  - intros [= <- <-]. split; [done|]. intros name Hne.
    by rewrite lookup_insert_ne.
Qed.

Lemma materialize_rest rec_gp fp_networks deep_extract attrs_list name :
  name ∉ attr_name <$> attrs_list →
  ∀ attrs deep attrs' deep',
  for_each (materialize identifier rec_gp fp_networks deep_extract) attrs_list
    (attrs, deep) = Ok (attrs', deep') →
  deep ⊆ deep' ∧ attrs' !! name = attrs !! name.
Proof.
  drop_unused.
  induction attrs_list as [|a l IH]; intros Hname attrs deep attrs' deep' Hrun;
    simpl in Hrun.
  - by injection Hrun as <- <-.
  - apply bind_Ok in Hrun as ([attrs1 deep1] & Hstep & Hrun).
    apply materialize_step in Hstep as [Hd Hattr].
    apply IH in Hrun as [Hd' Hattr']; [|set_solver].
    split; [set_solver|]. rewrite Hattr'. apply Hattr. set_solver.
Qed.

(** The value written for a graph-valued attribute that no later
    attribute of the node overwrites. *)
Lemma materialize_all_graph rec_gp fp_networks deep_extract node as1 a as2
    deep attrs deep' :
  node_attribute node = as1 ++ a :: as2 →
  attr_name a ∉ attr_name <$> as2 →
  graph_valued a →
  materialize_all identifier rec_gp fp_networks deep_extract node deep
    = Ok (attrs, deep') →
  ∃ xs ds,
    extract_graphs rec_gp fp_networks deep_extract a = Ok (xs, ds) ∧
    attrs !! attr_name a = Some (JList (JStr ∘ identifier <$> xs)) ∧
    xs ⊆ deep' ∧ ds ⊆ deep'.
Proof.
  drop_unused.
  intros Hsplit Hlast Hkind Hrun. unfold materialize_all in Hrun.
  rewrite Hsplit, for_each_app in Hrun.
  apply bind_Ok in Hrun as ([attrs1 deep1] & _ & Hrun).
  rewrite for_each_cons in Hrun.
  apply bind_Ok in Hrun as ([attrs2 deep2] & Hstep & Hrun).
  apply materialize_rest with (name := attr_name a) in Hrun as [Hd Hattr];
    [|done].
  unfold materialize in Hstep.
  rewrite orb_true_intro in Hstep
    by (destruct Hkind as [-> | ->]; [by left | by right]).
  apply bind_Ok in Hstep as ([xs ds] & Hx & [= <- <-]).
  exists xs, ds. split; [done|].
  rewrite Hattr, lookup_insert_eq. split; [done|]. set_solver.
Qed.

End Attributes.

Lemma Forall2_impl_elem {A B : Type} (R R' : A → B → Prop) l k :
  Forall2 R l k → (∀ x y, y ∈ k → R x y → R' x y) → Forall2 R' l k.
Proof.
  induction 1 as [|x y l k Hxy Hlk IH]; intros Himpl; constructor.
  - apply Himpl; [left | done].
  - apply IH. intros x' y' Hy'. apply Himpl. by right.
Qed.

Section GraphLevel.

Variable get_schema : string → string → option OpSchema.
Variable identifier : Network → string.
Variable features : Node → json.

#[local] Set Default Proof Using "Type".

Lemma materialize_all_grows rec_gp fp_networks deep_extract node deep attrs deep' :
  materialize_all identifier rec_gp fp_networks deep_extract node deep
    = Ok (attrs, deep') → deep ⊆ deep'.
Proof.
  drop_unused.
  unfold materialize_all.
  apply (for_each_ind (λ st, deep ⊆ st.2) _ _ (∅, deep) (attrs, deep')); [|done].
  intros a [m d] [m' d'] _ Hd Hstep. cbn [fst snd] in *.
  apply materialize_step in Hstep as [Hdd _]. set_solver.
Qed.

Lemma materialize_all_shallow rec_gp fp_networks node deep attrs deep' :
  materialize_all identifier rec_gp fp_networks false node deep
    = Ok (attrs, deep') → deep' = deep.
Proof.
  drop_unused.
  unfold materialize_all.
  apply (for_each_ind (λ st, st.2 = deep) _ _ (∅, deep) (attrs, deep')); [|done].
  intros a [m d] [m' d'] _ Hd Hstep. cbn [fst snd] in *. subst d.
  unfold materialize in Hstep.
  destruct (bool_decide _ || bool_decide _).
  - simpl in Hstep. injection Hstep as _ <-. by rewrite app_nil_r.
  - by injection Hstep as _ <-.
Qed.

(** What the step for a node stores under the node's own id, and that it
    keeps the records of the other ids and what has been discovered. *)
Lemma gp_node_step_builtin rec_gp fp_networks deep_extract pm_info io_info
    nid node lv lv' :
  node_domain node ∈ ONNXOperatorDomain →
  gp_node_step get_schema identifier features rec_gp fp_networks deep_extract pm_info io_info nid node lv = Ok lv' →
  ∃ node' attrs,
    lv_nodes lv' !! pretty nid = Some node' ∧ attributes node' = attrs ∧
    materialize_all identifier rec_gp fp_networks deep_extract node (lv_deep lv)
      = Ok (attrs, lv_deep lv').
Proof.
  drop_unused.
  intros Hdom Hstep. unfold gp_node_step in Hstep.
  rewrite bool_decide_eq_true_2 in Hstep by done.
  apply bind_Ok in Hstep as ([[[node' deep] i2x] o2x] & Hr & [= <-]).
  unfold gp_builtin_node in Hr.
  apply bind_Ok in Hr as (operator & _ & Hr).
  apply bind_Ok in Hr as ([attrs deep1] & Hattr & Hr).
  apply bind_Ok in Hr as ([? ?] & _ & Hr).
  apply bind_Ok in Hr as ([[? ?] ?] & _ & Hr).
  apply bind_Ok in Hr as ([[? ?] ?] & _ & [= <- <- _ _]).
  eexists _, _. simpl. rewrite lookup_insert_eq. by repeat split.
Qed.

Lemma gp_node_step_keeps rec_gp fp_networks deep_extract pm_info io_info
    nid node lv lv' :
  gp_node_step get_schema identifier features rec_gp fp_networks deep_extract pm_info io_info nid node lv = Ok lv' →
  lv_deep lv ⊆ lv_deep lv' ∧
  (deep_extract = false → lv_deep lv' = lv_deep lv) ∧
  ∀ j : nat, j ≠ nid → lv_nodes lv' !! pretty j = lv_nodes lv !! pretty j.
Proof.
  drop_unused.
  intros Hstep. unfold gp_node_step in Hstep.
  apply bind_Ok in Hstep as ([[[node' deep] i2x] o2x] & Hr & [= <-]). simpl.
  assert (lv_deep lv ⊆ deep ∧ (deep_extract = false → deep = lv_deep lv))
    as [Hd Hs].
  { destruct (bool_decide (node_domain node ∈ ONNXOperatorDomain)).
    - unfold gp_builtin_node in Hr.
      apply bind_Ok in Hr as (operator & _ & Hr).
      apply bind_Ok in Hr as ([attrs deep1] & Hattr & Hr).
      apply bind_Ok in Hr as ([? ?] & _ & Hr).
      apply bind_Ok in Hr as ([[? ?] ?] & _ & Hr).
      apply bind_Ok in Hr as ([[? ?] ?] & _ & [= _ <- _ _]).
      split; [by eapply materialize_all_grows|].
      intros ->. by eapply materialize_all_shallow.
    - unfold gp_function_node in Hr.
      apply bind_Ok in Hr as (attrs & _ & Hr).
      apply bind_Ok in Hr as ([? ?] & _ & Hr).
      by apply bind_Ok in Hr as ([? ?] & _ & [= _ <- _ _]). }
  repeat split; [done..|].
  intros j Hj. rewrite lookup_insert_ne; [done|].
  intros Heq. by apply (inj pretty) in Heq.
Qed.

Lemma gp_loop_keeps rec_gp fp_networks deep_extract pm_info io_info l :
  ∀ start lv lv',
  for_enumerate (gp_node_step get_schema identifier features rec_gp fp_networks deep_extract pm_info io_info)
    start l lv = Ok lv' →
  lv_deep lv ⊆ lv_deep lv' ∧
  (deep_extract = false → lv_deep lv' = lv_deep lv) ∧
  ∀ j : nat, (j < start)%nat → lv_nodes lv' !! pretty j = lv_nodes lv !! pretty j.
Proof.
  drop_unused.
  induction l as [|x l IH]; intros start lv lv' Hrun.
  - by injection Hrun as <-.
  - rewrite for_enumerate_cons in Hrun.
    apply bind_Ok in Hrun as (lv1 & Hstep & Hrun).
    apply gp_node_step_keeps in Hstep as (Hd1 & Hs1 & Hn1).
    apply IH in Hrun as (Hd & Hs & Hn).
    split; [set_solver|]. split.
    + intros Hsh. by rewrite Hs, Hs1.
    + intros j Hj. rewrite Hn by lia. apply Hn1. lia.
Qed.

(** The record of the built-in node at position [i] of a level, and
    what its attribute loop did. *)
Lemma gp_first_pass_node rec_gp gp fp_networks deep_extract lv i node :
  gp_first_pass get_schema identifier features rec_gp gp fp_networks
    deep_extract = Ok lv →
  gp_node gp !! i = Some node →
  node_domain node ∈ ONNXOperatorDomain →
  ∃ node' deep0 deep1,
    lv_nodes lv !! pretty i = Some node' ∧
    materialize_all identifier rec_gp fp_networks deep_extract node deep0
      = Ok (attributes node', deep1) ∧
    deep1 ⊆ lv_deep lv.
Proof.
  drop_unused.
  intros Hpass Hi Hdom. unfold gp_first_pass in Hpass.
  apply bind_Ok in Hpass as (pm_info & _ & Hloop).
  rewrite <- (take_drop_middle _ _ _ Hi), for_enumerate_app in Hloop.
  apply bind_Ok in Hloop as (lv0 & _ & Hloop).
  rewrite for_enumerate_cons in Hloop.
  apply bind_Ok in Hloop as (lv1 & Hstep & Hloop).
  pose proof (lookup_lt_Some _ _ _ Hi) as Hlt.
  rewrite length_take, Nat.min_l in Hstep, Hloop by lia. simpl in Hstep, Hloop.
  apply gp_node_step_builtin in Hstep as (node' & attrs & Hnode & <- & Hattr);
    [|done].
  apply gp_loop_keeps in Hloop as (Hd & _ & Hn).
  exists node', (lv_deep lv0), (lv_deep lv1).
  split; [|done]. rewrite Hn by lia. done.
Qed.

Lemma gp_first_pass_shallow rec_gp gp fp_networks lv :
  gp_first_pass get_schema identifier features rec_gp gp fp_networks false
    = Ok lv → lv_deep lv = [].
Proof.
  drop_unused.
  intros Hpass. unfold gp_first_pass in Hpass.
  apply bind_Ok in Hpass as (pm_info & _ & Hloop).
  by apply gp_loop_keeps in Hloop as (_ & -> & _).
Qed.

Lemma extract_from_gp_tags fuel gp fp_networks deep_extract sub n deeps :
  extract_from_gp get_schema identifier features fuel gp fp_networks
    deep_extract sub = Ok (n, deeps) →
  is_sub n = sub ∧ is_fnc n = false.
Proof.
  drop_unused.
  destruct fuel as [|fuel]; [done|]. simpl. unfold extract_from_gp_body.
  intros Hrun. apply bind_Ok in Hrun as (lv & _ & Hfin).
  by apply finish_level_Ok in Hfin as (_ & _ & _ & _ & ? & ? & _).
Qed.

End GraphLevel.

(** C5. Shallow: a successful [extract_from_gp] without deep extraction
    (this is what [extract_network] runs) discovers nothing, needs one
    level of calls only, so that no sub-graph is extracted, and gives every
    graph-valued attribute of a built-in node the empty list. Deep: every
    sub-graph of such an attribute is extracted with [is_sub = true], the
    attribute holds the identifiers of these Networks in order, and they
    and all they discovered are in the returned list. An attribute is
    looked up under its name, so the statement is about the last attribute
    of the node that bears the name. *)
Theorem graph_attributes_shallow_and_deep infer_shapes get_schema identifier
    features :
  (∀ fuel gp fp_networks sub n deeps,
     extract_from_gp get_schema identifier features fuel gp fp_networks
       false sub = Ok (n, deeps) →
     deeps = [] ∧
     extract_from_gp get_schema identifier features 1 gp fp_networks false sub
       = Ok (n, deeps) ∧
     ∀ (i : nat) node as1 a as2,
       gp_node gp !! i = Some node →
       node_domain node ∈ ONNXOperatorDomain →
       node_attribute node = as1 ++ a :: as2 →
       attr_name a ∉ attr_name <$> as2 →
       graph_valued a →
       ∃ node', nn_nodes n !! pretty i = Some node' ∧
                attributes node' !! attr_name a = Some (JList [])) ∧
  (∀ fuel model n (i : nat) node as1 a as2,
     extract_network infer_shapes get_schema identifier features fuel model
       = Ok n →
     gp_node (graph (infer_shapes (onnx_model model))) !! i = Some node →
     node_domain node ∈ ONNXOperatorDomain →
     node_attribute node = as1 ++ a :: as2 →
     attr_name a ∉ attr_name <$> as2 →
     graph_valued a →
     ∃ node', nn_nodes n !! pretty i = Some node' ∧
              attributes node' !! attr_name a = Some (JList [])) ∧
  (∀ fuel gp fp_networks sub n deeps (i : nat) node as1 a as2,
     extract_from_gp get_schema identifier features (S fuel) gp fp_networks
       true sub = Ok (n, deeps) →
     gp_node gp !! i = Some node →
     node_domain node ∈ ONNXOperatorDomain →
     node_attribute node = as1 ++ a :: as2 →
     attr_name a ∉ attr_name <$> as2 →
     graph_valued a →
     ∃ node' subs,
       nn_nodes n !! pretty i = Some node' ∧
       attributes node' !! attr_name a
         = Some (JList (JStr ∘ identifier <$> subs)) ∧
       Forall2 (λ g s, ∃ d,
           extract_from_gp get_schema identifier features fuel g fp_networks
             true true = Ok (s, d) ∧
           is_sub s = true ∧ s ∈ deeps ∧ d ⊆ deeps)
         (sub_graphs a) subs).
Proof.
  assert (Hshallow : ∀ fuel gp fp_networks sub n deeps,
     extract_from_gp get_schema identifier features fuel gp fp_networks
       false sub = Ok (n, deeps) →
     deeps = [] ∧
     extract_from_gp get_schema identifier features 1 gp fp_networks false sub
       = Ok (n, deeps) ∧
     ∀ (i : nat) node as1 a as2,
       gp_node gp !! i = Some node →
       node_domain node ∈ ONNXOperatorDomain →
       node_attribute node = as1 ++ a :: as2 →
       attr_name a ∉ attr_name <$> as2 →
       graph_valued a →
       ∃ node', nn_nodes n !! pretty i = Some node' ∧
                attributes node' !! attr_name a = Some (JList [])).
  { intros fuel gp reg sub n deeps Hrun.
    destruct fuel as [|fuel]; [done|].
    pose proof Hrun as Hrun1. rewrite extract_from_gp_shallow in Hrun1.
    simpl in Hrun. unfold extract_from_gp_body in Hrun.
    apply bind_Ok in Hrun as (lv & Hpass & Hfin).
    apply finish_level_Ok in Hfin as (_ & _ & Hnodes & _ & _ & _ & ->).
    split; [by eapply gp_first_pass_shallow|]. split; [done|].
    intros i node as1 a as2 Hi Hdom Hsplit Hlast Hkind.
    destruct (gp_first_pass_node _ _ _ _ _ _ _ _ _ _ Hpass Hi Hdom)
      as (node' & deep0 & deep1 & Hnode & Hattr & _).
    destruct (materialize_all_graph _ _ _ _ _ _ _ _ _ _ _ Hsplit Hlast Hkind Hattr)
      as (xs & ds & Hx & Hval & _).
    rewrite extract_graphs_shallow in Hx. injection Hx as <- <-.
    exists node'. by rewrite Hnodes. }
  split; [exact Hshallow|]. split.
  - intros fuel model n i node as1 a as2 Hrun. unfold extract_network in Hrun.
    apply bind_Ok in Hrun as ([n' d] & Hrun & [= <-]).
    apply Hshallow in Hrun as (_ & _ & Hattr). apply Hattr.
  - intros fuel gp reg sub n deeps i node as1 a as2 Hrun Hi Hdom Hsplit Hlast Hkind.
    simpl in Hrun. unfold extract_from_gp_body in Hrun.
    apply bind_Ok in Hrun as (lv & Hpass & Hfin).
    apply finish_level_Ok in Hfin as (_ & _ & Hnodes & _ & _ & _ & ->).
    destruct (gp_first_pass_node _ _ _ _ _ _ _ _ _ _ Hpass Hi Hdom)
      as (node' & deep0 & deep1 & Hnode & Hattr & Hdeep).
    destruct (materialize_all_graph _ _ _ _ _ _ _ _ _ _ _ Hsplit Hlast Hkind Hattr)
      as (xs & ds & Hx & Hval & Hxs & Hds).
    exists node', xs. rewrite Hnodes. split; [done|]. split; [done|].
    apply extract_graphs_deep in Hx; [|done].
    eapply Forall2_impl_elem; [exact Hx|].
    intros g s Hs (d & Hg & Hd). exists d. split; [done|].
    apply extract_from_gp_tags in Hg as [Hsub _].
    split; [done|]. split; [by apply Hdeep, Hxs|].
    intros m Hm. by apply Hdeep, Hds, Hd.
Qed.

Lemma graph_attributes_shallow_and_deep_witness :
  (∃ node', nn_nodes if_shallow_network !! pretty 0%nat = Some node' ∧
            attributes node' !! attr_name then_branch = Some (JList [])) ∧
  (∃ node' subs,
     nn_nodes if_deep_returned.1 !! pretty 0%nat = Some node' ∧
     attributes node' !! attr_name else_branch
       = Some (JList (JStr ∘ sample_identifier <$> subs)) ∧
     Forall2 (λ g s, ∃ d,
         sample_gp 1 g ∅ true true = Ok (s, d) ∧
         is_sub s = true ∧ s ∈ if_deep_returned.2 ∧ d ⊆ if_deep_returned.2)
       (sub_graphs else_branch) subs).
Proof.
  destruct (graph_attributes_shallow_and_deep sample_infer_shapes
              sample_get_schema sample_identifier sample_features)
    as (Hshallow & _ & Hdeep).
  split.
  - assert (sample_gp 1 if_graph ∅ false false = Ok (if_shallow_network, []))
      as Hrun
      by (vm_cast_no_check
            (eq_refl (@Ok (Network * list Network) (if_shallow_network, [])))).
    destruct (Hshallow _ _ _ _ _ _ Hrun) as (_ & _ & Hattr).
    apply (Hattr 0%nat if_node [] then_branch [else_branch]).
    + reflexivity.
    + apply list_elem_of_here.
    + reflexivity.
    + intros [Hne|Hin%elem_of_nil]%elem_of_cons; [discriminate Hne | done].
    + by left.
  - apply (Hdeep 1%nat if_graph ∅ false if_deep_returned.1 if_deep_returned.2
             0%nat if_node [then_branch] else_branch []).
    + vm_cast_no_check
        (eq_refl (@Ok (Network * list Network)
                    (if_deep_returned.1, if_deep_returned.2))).
    + reflexivity.
    + apply list_elem_of_here.
    + reflexivity.
    + apply not_elem_of_nil.
    + by left.
Defined.

(** * Further properties of the engine *)

(** ** The two lookups of a graph level *)

Lemma pm_info_loop inits : ∀ (acc : gmap string json),
  (∀ t, t ∈ inits → is_Some (tensor_dict t !! "dataType")) →
  ∃ pm_info,
    for_each (λ initializer (pm_info : gmap string json),
        match tensor_dict initializer !! "dataType" with
        | Some dataType =>
            Ok (<[tensor_name initializer :=
                    JDict [("dims", JList [JStr "dims"]); ("dataType", dataType)]]>
                  pm_info)
        | None => Err KeyError
        end) inits acc = Ok pm_info ∧
    ∀ name d, pm_info !! name = Some d →
      acc !! name = Some d ∨
      ∃ t dataType, t ∈ inits ∧ tensor_name t = name ∧
        tensor_dict t !! "dataType" = Some dataType ∧
        d = JDict [("dims", JList [JStr "dims"]); ("dataType", dataType)].
Proof.
  induction inits as [|t inits IH]; intros acc Hall.
  - exists acc. split; [done|]. intros name d Hd. by left.
  - rewrite for_each_cons.
    destruct (Hall t (list_elem_of_here _ _)) as [dt Hdt]. rewrite Hdt.
    cbn [mbind Result_bind].
    destruct (IH (<[tensor_name t :=
                      JDict [("dims", JList [JStr "dims"]); ("dataType", dt)]]> acc))
      as (pm_info & Hrun & Hpm).
    { intros t' Ht'. apply Hall. by right. }
    exists pm_info. split; [done|]. intros name d Hd.
    destruct (Hpm name d Hd) as [Hacc | (t' & dt' & Ht' & Hname & Hdt' & ->)].
    + destruct (decide (tensor_name t = name)) as [<-|Hne].
      * rewrite lookup_insert_eq in Hacc. injection Hacc as <-.
        right. exists t, dt. split; [left|done].
      * rewrite lookup_insert_ne in Hacc by done. by left.
    + right. exists t', dt'. split; [by right|done].
Qed.

Lemma pm_info_missing inits : ∀ (acc : gmap string json) t,
  t ∈ inits → tensor_dict t !! "dataType" = None →
  for_each (λ initializer (pm_info : gmap string json),
      match tensor_dict initializer !! "dataType" with
      | Some dataType =>
          Ok (<[tensor_name initializer :=
                  JDict [("dims", JList [JStr "dims"]); ("dataType", dataType)]]>
                pm_info)
      | None => Err KeyError
      end) inits acc = Err KeyError.
Proof.
  induction inits as [|t0 inits IH]; intros acc t Ht Hmiss;
    [by apply elem_of_nil in Ht|].
  rewrite for_each_cons.
  destruct (tensor_dict t0 !! "dataType") as [dt|] eqn:Hdt; [|done].
  cbn [mbind Result_bind].
  apply elem_of_cons in Ht as [->|Ht]; [congruence|]. by eapply IH.
Qed.

(** X1. The lookup of initializers succeeds exactly when every initializer
    has a [dataType]; otherwise it raises KeyError. When it succeeds, every
    descriptor it holds comes from an initializer of that name and carries
    that initializer's [dataType], and its [dims] is the literal list
    ['dims'] whatever the tensor's dimensions are. *)
Theorem pm_info_of_spec (inits : list TensorProto) :
  ((∀ t, t ∈ inits → is_Some (tensor_dict t !! "dataType")) →
   ∃ pm_info, pm_info_of inits = Ok pm_info ∧
     ∀ name d, pm_info !! name = Some d →
       ∃ t dataType, t ∈ inits ∧ tensor_name t = name ∧
         tensor_dict t !! "dataType" = Some dataType ∧
         d = JDict [("dims", JList [JStr "dims"]); ("dataType", dataType)]) ∧
  (∀ t, t ∈ inits → tensor_dict t !! "dataType" = None →
   pm_info_of inits = Err KeyError).
Proof.
  split.
  - intros Hall. destruct (pm_info_loop inits ∅ Hall) as (pm_info & Hrun & Hpm).
    exists pm_info. split; [done|]. intros name d Hd.
    destruct (Hpm name d Hd) as [Hempty|?]; [|done].
    by rewrite lookup_empty in Hempty.
  - intros t Ht Hmiss. by apply (pm_info_missing inits ∅ t).
Qed.

Lemma pm_info_of_spec_witness :
  (∃ pm_info, pm_info_of [constant "w"] = Ok pm_info ∧
     ∀ name d, pm_info !! name = Some d →
       ∃ t dataType, t ∈ [constant "w"] ∧ tensor_name t = name ∧
         tensor_dict t !! "dataType" = Some dataType ∧
         d = JDict [("dims", JList [JStr "dims"]); ("dataType", dataType)]) ∧
  pm_info_of [{| tensor_name := "w"; tensor_dict := ∅ |}] = Err KeyError.
Proof.
  destruct (pm_info_of_spec [constant "w"]) as [Hok _].
  destruct (pm_info_of_spec [{| tensor_name := "w"; tensor_dict := ∅ |}])
    as [_ Herr].
  split.
  - apply Hok. intros t Ht. apply list_elem_of_singleton in Ht as ->.
    eexists. vm_compute. reflexivity.
  - apply (Herr {| tensor_name := "w"; tensor_dict := ∅ |}).
    + apply list_elem_of_here.
    + reflexivity.
Defined.

Lemma io_info_fold (values : list ValueInfoProto) : ∀ (acc : gmap string json) name,
  foldl io_info_add acc values !! name =
  match last (filter (λ v, vi_name v = name) values) with
  | Some v => Some (vi_type v)
  | None => acc !! name
  end.
Proof.
  induction values as [|v values IH]; intros acc name; [done|].
  cbn [foldl]. rewrite IH. unfold io_info_add.
  destruct (decide (vi_name v = name)) as [Heq|Hne].
  - rewrite filter_cons_True by done.
    destruct (filter _ values) as [|v' l] eqn:Hf.
    + cbn. subst name. apply lookup_insert_eq.
    + change (last (v :: v' :: l)) with (last (v' :: l)).
      by destruct (proj2 (last_is_Some (v' :: l))) as [w ->].
  - rewrite filter_cons_False by done.
    destruct (last (filter _ values)); [done|]. by rewrite lookup_insert_ne.
Qed.

(** X2. A value name is annotated exactly when the graph declares it as an
    input, an intermediate value or an output, and its descriptor is the
    type of the last such declaration, outputs after intermediate values
    after inputs. *)
Theorem io_info_last_declaration (gp : GraphProto) (name : string) :
  io_info_of gp !! name =
  vi_type <$> last (filter (λ v, vi_name v = name)
                      (gp_input gp ++ gp_value_info gp ++ gp_output gp)).
Proof.
  unfold io_info_of. rewrite <- !foldl_app, io_info_fold, lookup_empty.
  by destruct (last _).
Qed.

(** ** A function that calls a function still unresolved *)

Lemma for_enumerate_Ok_lookup {A St : Type} (body : nat → A → St → Result St) l :
  ∀ start s s', for_enumerate body start l s = Ok s' →
  ∀ (i : nat) x, l !! i = Some x → ∃ s1 s2, body (start + i)%nat x s1 = Ok s2.
Proof.
  induction l as [|y l IH]; intros start s s' Hrun i x Hi; [done|].
  rewrite for_enumerate_cons in Hrun.
  apply bind_Ok in Hrun as (s1 & Hstep & Hrun).
  destruct i as [|i]; simpl in Hi.
  - injection Hi as ->. exists s, s1. by rewrite Nat.add_0_r.
  - destruct (IH _ _ _ Hrun i x Hi) as (t1 & t2 & Ht). exists t1, t2.
    by rewrite Nat.add_succ_r.
Qed.

Lemma seed_registry_lookup fs g :
  g ∈ fs → ∃ g', seed_registry fs !! function_key g = Some (Raw g').
Proof.
  unfold seed_registry.
  assert (∀ (acc : registry),
    (g ∈ fs ∨ ∃ g', acc !! function_key g = Some (Raw g')) →
    ∃ g', foldl (λ fp_networks function,
                   <[function_key function := Raw function]> fp_networks)
            acc fs !! function_key g = Some (Raw g')) as Hgen.
  { induction fs as [|f fs IH]; intros acc Hg.
    - destruct Hg as [Hg|Hg]; [by apply elem_of_nil in Hg | done].
    - cbn [foldl]. apply IH.
      destruct (decide (function_key f = function_key g)) as [Heq|Hne].
      + right. exists f. by rewrite <- Heq, lookup_insert_eq.
      + destruct Hg as [Hg|[g' Hg']].
        * apply elem_of_cons in Hg as [->|Hg]; [done | by left].
        * right. exists g'. by rewrite lookup_insert_ne. }
  intros Hg. apply Hgen. by left.
Qed.

Section Unresolved.

Variable infer_shapes : ModelProto → ModelProto.
Variable get_schema : string → string → option OpSchema.
Variable identifier : Network → string.
Variable features : Node → json.

(** The loop over the functions writes only the keys of the functions it
  has gone through. *)
Lemma resolve_functions_other_keys fuel deep_extract fs :
∀ reg deeps reg' r key,
resolve_functions get_schema identifier features fuel deep_extract fs reg deeps
  = (reg', r) →
key ∉ function_key <$> fs → reg' !! key = reg !! key.
Proof.
induction fs as [|f fs IH]; intros reg deeps reg' r key Hrun Hkey;
  simpl in Hrun.
- by injection Hrun as <- _.
- rewrite fmap_cons in Hkey. apply not_elem_of_cons in Hkey as [Hne Hkey].
  destruct (reg !! function_key f) as [[raw|n]|] eqn:Hf.
  + destruct (extract_from_fp _ _ _ _ _ _ _ _) as [[n d]|e].
    * rewrite (IH _ _ _ _ _ Hrun Hkey). by rewrite lookup_insert_ne.
    * by injection Hrun as <- _.
  + by rewrite (IH _ _ _ _ _ Hrun Hkey).
  + by injection Hrun as <- _.
Qed.

(** X3. [extract_from_fp] never returns a Network for a function body
  that has a node, outside the built-in domains, whose (type, domain) is
  registered but still raw: the callee is extracted and the store of the
  result raises NameError (or the extraction of the callee fails first).
  Hence [extract_networks] fails on every model in which a function
  whose key no earlier declaration bears calls a declared function
  whose key no earlier declaration bears either (a later function, or
  itself). *)
Theorem unresolved_callee_never_extracts :
(∀ fuel fp fp_networks deep_extract sub node raw,
   node ∈ fn_node fp →
   node_domain node ∉ ONNXOperatorDomain →
   fp_networks !! (node_op_type node, node_domain node) = Some (Raw raw) →
   ∃ e, extract_from_fp get_schema identifier features fuel fp fp_networks
          deep_extract sub = Err e) ∧
(∀ fuel model deep_extract fs1 f fs2 node g,
   functions (infer_shapes (onnx_model model)) = fs1 ++ f :: fs2 →
   node ∈ fn_node f →
   node_domain node ∉ ONNXOperatorDomain →
   g ∈ f :: fs2 →
   (node_op_type node, node_domain node) = function_key g →
   function_key f ∉ function_key <$> fs1 →
   function_key g ∉ function_key <$> fs1 →
   ∃ e, extract_networks infer_shapes get_schema identifier features fuel
          model deep_extract = Err e).
Proof.
assert (Hfp : ∀ fuel fp fp_networks deep_extract sub node raw,
   node ∈ fn_node fp →
   node_domain node ∉ ONNXOperatorDomain →
   fp_networks !! (node_op_type node, node_domain node) = Some (Raw raw) →
   ∃ e, extract_from_fp get_schema identifier features fuel fp fp_networks
          deep_extract sub = Err e).
{ intros fuel fp reg deep sub node raw Hnode Hdom Hraw.
  destruct (extract_from_fp _ _ _ _ _ _ _ _) as [[n d]|e] eqn:Hrun;
    [|by exists e].
  exfalso. destruct fuel as [|fuel]; [done|]. simpl in Hrun.
  unfold extract_from_fp_body in Hrun.
  apply bind_Ok in Hrun as (lv & Hpass & _). unfold fp_first_pass in Hpass.
  apply list_elem_of_lookup in Hnode as [i Hi].
  destruct (for_enumerate_Ok_lookup _ _ _ _ _ Hpass i node Hi)
    as (s1 & s2 & Hstep).
  unfold fp_node_step in Hstep.
  rewrite bool_decide_eq_false_2 in Hstep by done.
  apply bind_Ok in Hstep as (r & Hr & _).
  unfold fp_function_node in Hr. rewrite Hraw in Hr.
  apply bind_Ok in Hr as ([attrs deep1] & Hattr & _).
  by apply bind_Ok in Hattr as (? & _ & [=]). }
split; [exact Hfp|].
intros fuel model deep fs1 f fs2 node g Hfs Hnode Hdom Hg Hkey Hf Hfresh.
unfold extract_networks, run_extract_networks. rewrite Hfs.
rewrite resolve_functions_app.
destruct (resolve_functions _ _ _ _ _ fs1 _ _) as [reg1 [deeps1|e]] eqn:Hfirst;
  [|by exists e].
assert (∀ h, h ∈ f :: fs2 → function_key h ∉ function_key <$> fs1 →
             ∃ h', reg1 !! function_key h = Some (Raw h')) as Hraw.
{ intros h Hh Hfh.
  rewrite (resolve_functions_other_keys _ _ _ _ _ _ _ _ Hfirst Hfh).
  apply seed_registry_lookup. apply elem_of_app. by right. }
destruct (Hraw f (list_elem_of_here _ _) Hf) as [f' Hf'].
destruct (Hraw g Hg Hfresh) as [g' Hg'].
cbn [resolve_functions]. rewrite Hf'. rewrite <- Hkey in Hg'.
destruct (Hfp fuel f reg1 deep true node g' Hnode Hdom Hg') as [e ->].
by exists e.
Qed.

End Unresolved.

Lemma unresolved_callee_never_extracts_witness :
  ∃ e, extract_networks sample_infer_shapes sample_get_schema sample_identifier
         sample_features 3 forward_call_model true = Err e.
Proof.
  destruct (unresolved_callee_never_extracts sample_infer_shapes
              sample_get_schema sample_identifier sample_features) as [_ Hmodel].
  apply (Hmodel 3%nat forward_call_model true [] function_F_calls_G [function_G]
           (Build_NodeProto "G" "custom" ["x"] ["y"] []) function_G).
  - reflexivity.
  - apply list_elem_of_here.
  - intros Hin. by repeat (apply elem_of_cons in Hin as [Hin|Hin]; [done|]);
      apply elem_of_nil in Hin.
  - apply list_elem_of_further, list_elem_of_here.
  - reflexivity.
  - apply not_elem_of_nil.
  - apply not_elem_of_nil.
Defined.

(** ** The naming rules in general *)

Lemma enumerate_cons {A : Type} start (x : A) l :
  enumerate start (x :: l) = (start, x) :: enumerate (S start) l.
Proof. done. Qed.

Lemma py_index_last {A : Type} (l : list A) (x : A) :
  last l = Some x →
  py_index l (-1) = Ok x ∧ py_index l (len l - 1) = Ok x.
Proof.
  intros Hlast. rewrite last_lookup in Hlast.
  pose proof (lookup_lt_Some _ _ _ Hlast) as Hlt.
  unfold py_index, len. cbv zeta.
  destruct (decide (-1 < 0)%Z) as [_|?]; [|lia].
  destruct (decide (0 ≤ Z.of_nat (length l) + -1 < Z.of_nat (length l))%Z)
    as [_|?]; [|lia].
  destruct (decide (Z.of_nat (length l) - 1 < 0)%Z) as [?|_]; [lia|].
  destruct (decide (0 ≤ Z.of_nat (length l) - 1 < Z.of_nat (length l))%Z)
    as [_|?]; [|lia].
  replace (Z.to_nat (Z.of_nat (length l) + -1)) with (pred (length l)) by lia.
  replace (Z.to_nat (Z.of_nat (length l) - 1)) with (pred (length l)) by lia.
  by rewrite Hlast.
Qed.

(** One step of a slot loop of [extract_from_fp], at a position the
    schema covers or beyond a variadic last slot. *)
Lemma resolve_slot_fp slots carried (i : nat) :
  ((i < length slots)%nat ∨
   ∃ s, last slots = Some s ∧ param_option s = Variadic) →
  ∃ name,
    fp_slot_name slots carried i = Some name ∧
    resolve_slot slots (Z.of_nat i) (carried + (i - length slots))
    = Ok (name, Z.of_nat (i `min` (length slots - 1)),
          carried + (S i - length slots))%nat.
Proof.
  intros Hcase. unfold fp_slot_name, resolve_slot, overflows_variadic, len.
  destruct (decide (i < length slots)%nat) as [Hlt|Hge].
  - destruct (lookup_lt_is_Some_2 slots i Hlt) as [s Hs].
    exists (param_name s +:+ suffix carried). rewrite Hs. split; [done|].
    destruct (decide (Z.of_nat (length slots) ≤ Z.of_nat i)%Z) as [?|_]; [lia|].
    cbn [mbind Result_bind]. unfold slot_name.
    rewrite (py_index_lookup _ _ _ Hs). cbn [mbind Result_bind].
    replace (carried + (i - length slots))%nat with carried by lia.
    replace (carried + (S i - length slots))%nat with carried by lia.
    by replace (i `min` (length slots - 1))%nat with i by lia.
  - destruct Hcase as [?|(s & Hlast & Hvar)]; [done|].
    exists (param_name s +:+ suffix (carried + (i - length slots) + 1)).
    rewrite Hlast. split; [done|].
    assert (0 < length slots)%nat as Hpos0
      by (destruct slots; [done | cbn [length]; lia]).
    destruct (py_index_last _ _ Hlast) as [Hneg Hpos]. unfold len in Hpos.
    destruct (decide (Z.of_nat (length slots) ≤ Z.of_nat i)%Z) as [_|?]; [|lia].
    rewrite Hneg. cbn [mbind Result_bind].
    rewrite bool_decide_eq_true_2 by done. unfold slot_name.
    rewrite Hpos. cbn [mbind Result_bind].
    replace (S (carried + (i - length slots))) with
      (carried + (i - length slots) + 1)%nat by lia.
    replace (carried + (S i - length slots))%nat with
      (carried + (i - length slots) + 1)%nat by lia.
    replace (Z.of_nat (length slots) - 1)%Z with
      (Z.of_nat (i `min` (length slots - 1))) by lia.
    done.
Qed.

Lemma last_filter_cons {A : Type} (P : A → Prop) `{∀ a, Decision (P a)}
    (x : A) (l : list A) :
  last (filter P (x :: l)) =
  match last (filter P l) with
  | Some y => Some y
  | None => if decide (P x) then Some x else None
  end.
Proof.
  destruct (decide (P x)) as [Hx|Hx].
  - rewrite filter_cons_True by done. apply last_cons.
  - rewrite filter_cons_False by done. by destruct (last _).
Qed.

(** X4. The naming rule of [extract_from_fp]. A slot loop that starts
    with [variadic_index = carried] over values that the schema covers, or
    whose last slot is variadic, never raises: it names position [i]
    [fp_slot_name slots carried i], leaves [variadic_index] at [carried]
    plus the number of positions beyond the schema, and the mapping it
    builds holds, under each name, the value of the last position that was
    given the name. *)
Theorem fp_slot_loop_names slots nid l : ∀ start carried (x2x : slot_table)
    (named : gmap string json),
  ((start + length l ≤ length slots)%nat ∨
   ∃ s, last slots = Some s ∧ param_option s = Variadic) →
  ∃ x2x' named',
    for_enumerate (fp_slot_step slots nid) start l
      (carried + (start - length slots), x2x, named)%nat
    = Ok (carried + (start + length l - length slots), x2x', named')%nat ∧
    ∀ name, named' !! name =
      match last (filter (λ iv, fp_slot_name slots carried iv.1 = Some name)
                    (enumerate start l)) with
      | Some iv => Some (JStr iv.2)
      | None => named !! name
      end.
Proof.
  induction l as [|value l IH]; intros start carried x2x named Hcase.
  - exists x2x, named. cbn [for_enumerate length]. by rewrite Nat.add_0_r.
  - cbn [length] in *. rewrite for_enumerate_cons.
    destruct (resolve_slot_fp slots carried start) as (name0 & Hname0 & Hres).
    { destruct Hcase as [?|?]; [left; lia | by right]. }
    assert (fp_slot_step slots nid start value
              (carried + (start - length slots), x2x, named)%nat
            = Ok (carried + (S start - length slots),
                  <[value := (nid, name0,
                              Z.of_nat (start `min` (length slots - 1)))]> x2x,
                  <[name0 := JStr value]> named)%nat) as ->
      by (unfold fp_slot_step; by rewrite Hres).
    cbn [mbind Result_bind].
    destruct (IH (S start) carried
                (<[value := (nid, name0, Z.of_nat (start `min` (length slots - 1)))]> x2x)
                (<[name0 := JStr value]> named))
      as (x2x' & named' & Hrun & Hnamed).
    { destruct Hcase as [?|?]; [left; lia | by right]. }
    exists x2x', named'. split.
    { rewrite Hrun. by replace (S start + length l)%nat
                         with (start + S (length l))%nat by lia. }
    intros name. rewrite Hnamed, enumerate_cons, last_filter_cons.
    destruct (last (filter _ (enumerate (S start) l))) as [iv|]; [done|].
    cbn [fst snd]. rewrite Hname0.
    destruct (decide (Some name0 = Some name)) as [[= ->]|Hne].
    + apply lookup_insert_eq.
    + rewrite lookup_insert_ne; [done|]. congruence.
Qed.

Lemma fp_slot_loop_names_witness :
  ∃ x2x' named',
    for_enumerate (fp_slot_step [slot "a" Single; slot "b" Variadic] "0") 0
      ["x0"; "x1"; "x2"; "x3"] (0, ∅, ∅)%nat = Ok (2%nat, x2x', named') ∧
    named' !! "b_2" = Some (JStr "x3") ∧ named' !! "b_3" = None.
Proof.
  destruct (fp_slot_loop_names [slot "a" Single; slot "b" Variadic] "0"
              ["x0"; "x1"; "x2"; "x3"] 0%nat 0%nat ∅ ∅)
    as (x2x' & named' & Hrun & Hnamed).
  - right. by exists (slot "b" Variadic).
  - exists x2x', named'. split; [exact Hrun|]. by rewrite !Hnamed.
Defined.

Lemma string_app_cons c (s t : string) : String c s +:+ t = String c (s +:+ t).
Proof. done. Qed.

Lemma string_app_length (s t : string) :
  String.length (s +:+ t) = (String.length s + String.length t)%nat.
Proof.
  induction s as [|c s IH]; [done|].
  rewrite string_app_cons. cbn [String.length]. by rewrite IH.
Qed.

Lemma string_app_inv_tail (t : string) : ∀ s1 s2 : string,
  s1 +:+ t = s2 +:+ t → s1 = s2.
Proof.
  induction s1 as [|c s1 IH]; intros [|c' s2] Heq; [done| | |].
  - apply (f_equal String.length) in Heq.
    rewrite !string_app_length in Heq. cbn [String.length] in Heq. lia.
  - apply (f_equal String.length) in Heq.
    rewrite !string_app_length in Heq. cbn [String.length] in Heq. lia.
  - rewrite !string_app_cons in Heq. injection Heq as -> Heq.
    by rewrite (IH s2 Heq).
Qed.

Lemma filter_none {A : Type} (P : A → Prop) `{∀ a, Decision (P a)} (l : list A) :
  (∀ x, x ∈ l → ¬ P x) → filter P l = [].
Proof.
  induction l as [|x l IH]; intros Hall; [done|].
  rewrite filter_cons_False by (apply Hall; left).
  apply IH. intros y Hy. apply Hall. by right.
Qed.

(** X5. A function-body node whose inputs go [k > 0] positions beyond a
    variadic last input slot gives its results, all inside the schema, the
    slot names with the suffix [_k]: the result loop is not started at 0. *)
Theorem fp_results_carry_input_suffix get_schema identifier rec_gp fp_networks
    deep_extract nid node lv operator s node' deep' i2x o2x (i : nat) output out :
  get_schema (node_op_type node) (node_domain node) = Some operator →
  last (schema_inputs operator) = Some s → param_option s = Variadic →
  (length (schema_inputs operator) < length (node_input node))%nat →
  (length (node_output node) ≤ length (schema_outputs operator))%nat →
  NoDup (param_name <$> schema_outputs operator) →
  fp_builtin_node get_schema identifier rec_gp fp_networks deep_extract nid
    node lv = Ok (node', deep', i2x, o2x) →
  node_output node !! i = Some output →
  schema_outputs operator !! i = Some out →
  results node' !!
    (param_name out +:+
       suffix (length (node_input node) - length (schema_inputs operator)))
  = Some (JStr output).
Proof.
  intros Hschema Hlast Hvar Hover Hwithin Hnd Hrun Hi Hout.
  unfold fp_builtin_node in Hrun. rewrite Hschema in Hrun.
  cbn [mbind Result_bind] in Hrun.
  apply bind_Ok in Hrun as ([attrs deep1] & _ & Hrun).
  destruct (fp_slot_loop_names (schema_inputs operator) nid (node_input node)
              0%nat 0%nat (lv_i2x lv) ∅) as (x2x1 & named1 & Hin & _).
  { right. by exists s. }
  set (k := (length (node_input node) - length (schema_inputs operator))%nat) in *.
  replace (0 + (0 - length (schema_inputs operator)))%nat with 0%nat in Hin by lia.
  replace (0 + (0 + length (node_input node) - length (schema_inputs operator)))%nat
    with k in Hin by lia.
  rewrite Hin in Hrun. cbn [mbind Result_bind] in Hrun.
  destruct (fp_slot_loop_names (schema_outputs operator) nid (node_output node)
              0%nat k (lv_o2x lv) ∅) as (x2x2 & named2 & Hres & Hnamed).
  { by left. }
  replace (k + (0 - length (schema_outputs operator)))%nat with k in Hres by lia.
  rewrite Hres in Hrun. cbn [mbind Result_bind] in Hrun.
  injection Hrun as <- _ _ _. cbn [results].
  rewrite Hnamed.
  assert (Hname : ∀ (j : nat) o, schema_outputs operator !! j = Some o →
            fp_slot_name (schema_outputs operator) k j
            = Some (param_name o +:+ suffix k)).
  { intros j o Hj. unfold fp_slot_name.
    rewrite decide_True by by eapply lookup_lt_Some. by rewrite Hj. }
  assert (Hlastw : ∀ l start,
            (start + length l ≤ length (schema_outputs operator))%nat →
            (start ≤ i)%nat → l !! (i - start)%nat = Some output →
            last (filter (λ iv, fp_slot_name (schema_outputs operator) k iv.1
                                = Some (param_name out +:+ suffix k))
                    (enumerate start l)) = Some (i, output)).
  { induction l as [|o l IH]; intros start Hlen Hle Hlook; [done|].
    cbn [length] in Hlen. rewrite enumerate_cons, last_filter_cons.
    destruct (decide (start = i)) as [->|Hne].
    - rewrite Nat.sub_diag in Hlook. injection Hlook as ->.
      assert (filter (λ iv, fp_slot_name (schema_outputs operator) k iv.1
                            = Some (param_name out +:+ suffix k))
                (enumerate (S i) l) = []) as ->.
      { apply filter_none. intros [j o] Hjo Hfalse.
        cbn [fst] in Hfalse. unfold enumerate in Hjo.
        apply elem_of_zip_l in Hjo as Hj. apply elem_of_seq in Hj.
        destruct (lookup_lt_is_Some_2 (schema_outputs operator) j) as [oj Hoj];
          [lia|].
        rewrite (Hname j oj Hoj) in Hfalse. injection Hfalse as Hfalse.
        apply string_app_inv_tail in Hfalse.
        assert (j ≠ i) as Hji by lia.
        exact (slot_names_differ (schema_outputs operator) j i oj out
                 Hnd Hoj Hout Hji Hfalse). }
      cbn [last fst]. by rewrite (Hname i out Hout), decide_True.
    - rewrite (IH (S start)); [done|lia|lia|].
      by replace (i - start)%nat with (S (i - S start)) in Hlook by lia. }
  rewrite (Hlastw (node_output node) 0%nat); [done|done|lia|].
  by rewrite Nat.sub_0_r.
Qed.

Lemma fp_results_carry_input_suffix_witness :
  ∃ node' deep' i2x o2x,
    fp_builtin_node sample_get_schema sample_identifier (sample_gp 0) ∅ false
      "0" accumulate_node empty_Level = Ok (node', deep', i2x, o2x) ∧
    results node' !!
      (param_name (slot "y" Single) +:+
         suffix (length (node_input accumulate_node)
                 - length [slot "a" Single; slot "b" Variadic]))
    = Some (JStr "s").
Proof.
  eexists _, _, _, _. split; [vm_compute; reflexivity|].
  refine (fp_results_carry_input_suffix sample_get_schema sample_identifier
            (sample_gp 0) ∅ false "0" accumulate_node empty_Level
            {| schema_inputs := [slot "a" Single; slot "b" Variadic];
               schema_outputs := [slot "y" Single] |}
            (slot "b" Variadic) _ _ _ _ 0%nat "s" (slot "y" Single)
            eq_refl eq_refl eq_refl _ (le_n 1) (NoDup_singleton "y") _
            eq_refl eq_refl).
  - cbn. lia.
  - vm_compute. reflexivity.
Defined.

(** X6. The naming rule of [extract_from_gp] for operands and results.
    With a schema of at least one slot the loop never raises and never
    uses a suffix: the annotated value at position [i] is recorded under
    the plain name of slot [min(i, len - 1)], and the mapping holds, under
    each slot name, the descriptor of the last annotated value that was
    given the name. With a schema of no slot, the first annotated value
    raises IndexError. *)
Theorem gp_slot_loop_clamped slots io_info nid l :
  (slots ≠ [] →
   ∀ start (x2x : slot_table) (named : gmap string json),
   ∃ x2x' named',
     for_enumerate (gp_slot_step slots io_info nid) start l (0%nat, x2x, named)
     = Ok (0%nat, x2x', named') ∧
     ∀ name, named' !! name =
       match last (filter (λ iv, is_Some (io_info !! iv.2) ∧
                                 gp_slot_name slots iv.1 = Some name)
                     (enumerate start l)) with
       | Some iv => io_info !! iv.2
       | None => named !! name
       end) ∧
  (slots = [] →
   (∃ value, value ∈ l ∧ is_Some (io_info !! value)) →
   ∀ start st,
     for_enumerate (gp_slot_step slots io_info nid) start l st = Err IndexError).
Proof.
  split.
  - intros Hne. assert (0 < length slots)%nat as Hpos
      by (destruct slots; [done | cbn [length]; lia]).
    induction l as [|value l IH]; intros start x2x named.
    + by exists x2x, named.
    + rewrite for_enumerate_cons.
      set (i := (start `min` (length slots - 1))%nat).
      destruct (lookup_lt_is_Some_2 slots i) as [s Hs]; [lia|].
      assert (gp_slot_name slots start = Some (param_name s)) as Hname
        by (unfold gp_slot_name; fold i; by rewrite Hs).
      destruct (io_info !! value) as [d|] eqn:Hd.
      * assert (gp_slot_step slots io_info nid start value (0%nat, x2x, named)
                = Ok (0%nat, <[value := (nid, param_name s, Z.of_nat i)]> x2x,
                      <[param_name s := d]> named)) as ->.
        { unfold gp_slot_step, len. rewrite Hd.
          replace (Z.of_nat start `min` (Z.of_nat (length slots) - 1))%Z
            with (Z.of_nat i) by lia.
          by rewrite (resolve_slot_within _ _ _ Hs). }
        cbn [mbind Result_bind].
        destruct (IH (S start) (<[value := (nid, param_name s, Z.of_nat i)]> x2x)
                    (<[param_name s := d]> named))
          as (x2x' & named' & Hrun & Hnamed).
        exists x2x', named'. split; [done|]. intros name.
        rewrite Hnamed, enumerate_cons, last_filter_cons.
        destruct (last (filter _ (enumerate (S start) l))) as [iv|]; [done|].
        cbn [fst snd]. rewrite Hname, Hd.
        destruct (decide (param_name s = name)) as [->|Hneq].
        -- rewrite decide_True by (split; [by eexists | done]).
           cbn [snd]. rewrite Hd. apply lookup_insert_eq.
        -- rewrite decide_False by (intros [_ [=]]; done).
           by rewrite lookup_insert_ne.
      * assert (gp_slot_step slots io_info nid start value (0%nat, x2x, named)
                = Ok (0%nat, x2x, named)) as ->
          by (unfold gp_slot_step; by rewrite Hd).
        cbn [mbind Result_bind].
        destruct (IH (S start) x2x named) as (x2x' & named' & Hrun & Hnamed).
        exists x2x', named'. split; [done|]. intros name.
        rewrite Hnamed, enumerate_cons, last_filter_cons.
        destruct (last (filter _ (enumerate (S start) l))) as [iv|]; [done|].
        cbn [fst snd]. rewrite Hd.
        by rewrite decide_False by (intros [[? [=]] _]).
  - intros -> (value & Hvalue & Hann).
    induction l as [|v l IH]; intros start [[vi x2x] named];
      [by apply elem_of_nil in Hvalue|].
    rewrite for_enumerate_cons.
    destruct (io_info !! v) as [d|] eqn:Hd.
    + assert (gp_slot_step [] io_info nid start v (vi, x2x, named)
              = Err IndexError) as ->; [|done].
      unfold gp_slot_step. rewrite Hd. unfold resolve_slot, overflows_variadic.
      unfold len. cbn [length].
      replace (Z.of_nat start `min` (Z.of_nat 0 - 1))%Z with (-1)%Z by lia.
      rewrite decide_False by lia. done.
    + assert (gp_slot_step [] io_info nid start v (vi, x2x, named)
              = Ok (vi, x2x, named)) as ->
        by (unfold gp_slot_step; by rewrite Hd).
      cbn [mbind Result_bind]. apply IH.
      apply elem_of_cons in Hvalue as [->|Hvalue]; [|done].
      rewrite Hd in Hann. by destruct Hann.
Qed.

Lemma gp_slot_loop_clamped_witness :
  (∃ x2x' named',
     for_enumerate (gp_slot_step [slot "a" Single; slot "b" Variadic]
                      (io_info_of accumulate_graph) "0") 0
       ["x0"; "x1"; "x2"; "x3"] (0%nat, ∅, ∅) = Ok (0%nat, x2x', named') ∧
     named' !! "b" = Some (JDict [("tensorType", JStr "x3")]) ∧
     named' !! "b_1" = None) ∧
  for_enumerate (gp_slot_step [] (io_info_of accumulate_graph) "0") 0
    ["x0"] (0%nat, ∅, ∅) = Err IndexError.
Proof.
  split.
  - destruct (gp_slot_loop_clamped [slot "a" Single; slot "b" Variadic]
                (io_info_of accumulate_graph) "0" ["x0"; "x1"; "x2"; "x3"])
      as [Hok _].
    destruct (Hok ltac:(done) 0%nat ∅ ∅) as (x2x' & named' & Hrun & Hnamed).
    exists x2x', named'. split; [exact Hrun|]. rewrite !Hnamed.
    split; vm_compute; reflexivity.
  - destruct (gp_slot_loop_clamped [] (io_info_of accumulate_graph) "0" ["x0"])
      as [_ Herr].
    apply Herr; [done|]. exists "x0". split; [apply list_elem_of_here|].
    eexists. vm_compute. reflexivity.
Defined.

(** ** The vertices and the edges of a level *)

Lemma enumerate_snoc {A : Type} (l : list A) (x : A) : ∀ start,
  enumerate start (l ++ [x]) = enumerate start l ++ [((start + length l)%nat, x)].
Proof.
  induction l as [|y l IH]; intros start.
  - cbn. by rewrite Nat.add_0_r.
  - rewrite <- app_comm_cons, !enumerate_cons, IH. cbn [length].
    by rewrite Nat.add_succ_r.
Qed.

Lemma last_user_snoc proj l node name :
  last_user proj (l ++ [node]) name =
  if decide (name ∈ proj node) then Some (length l) else last_user proj l name.
Proof.
  unfold last_user. rewrite enumerate_snoc, filter_app, last_app. cbn [Nat.add].
  case_decide as Hin.
  - by rewrite filter_cons_True by done.
  - by rewrite filter_cons_False by done.
Qed.

Lemma last_user_Some proj nodes name (k : nat) :
  last_user proj nodes name = Some k →
  ∃ node, nodes !! k = Some node ∧ name ∈ proj node.
Proof.
  induction nodes as [|node nodes IH] using rev_ind; [done|].
  rewrite last_user_snoc. case_decide as Hin.
  - intros [= <-]. exists node. split; [apply list_lookup_middle|]; done.
  - intros Hk. destruct (IH Hk) as (n & Hn & Hpn). exists n.
    split; [|done]. by apply lookup_app_l_Some.
Qed.

Lemma table_of_nil ok proj : table_of ok proj [] ∅.
Proof.
  intros name v. unfold table_vertex. rewrite lookup_empty. cbn.
  split; [done | by intros [_ ?]].
Qed.

Lemma table_of_snoc ok proj nodes node x2x x2x' :
  table_of ok proj nodes x2x →
  table_step ok (pretty (length nodes)) (proj node) x2x x2x' →
  table_of ok proj (nodes ++ [node]) x2x'.
Proof.
  intros Htab Hstep name v. rewrite last_user_snoc.
  destruct (Hstep name) as [(Hok & Hin & Htv) | (Hnot & Hsame)].
  - rewrite decide_True by done. rewrite Htv. cbn.
    split; [by intros [= <-] | by intros [_ [= <-]]].
  - assert (table_vertex x2x' name = table_vertex x2x name) as ->
      by (unfold table_vertex; by rewrite Hsame).
    rewrite (Htab name v). case_decide as Hin; [|done].
    split; intros [Hok _]; destruct Hnot; by split.
Qed.

(** A slot loop writes the names it goes through, under the id of its
    node, and nothing else. *)
Lemma slot_loop_table {St : Type} (get : St → slot_table) (ok : string → Prop)
    (nid : string) (step : nat → string → St → Result St) l :
  (∀ i value st st', step i value st = Ok st' →
     (ok value ∧ ∃ s idx, get st' = <[value := (nid, s, idx)]> (get st)) ∨
     (¬ ok value ∧ get st' = get st)) →
  ∀ start st st', for_enumerate step start l st = Ok st' →
  table_step ok nid l (get st) (get st').
Proof.
  intros Hwrites. induction l as [|value l IH]; intros start st st' Hrun.
  - injection Hrun as <-. intros name. right. split; [|done].
    intros (_ & Hin). by apply elem_of_nil in Hin.
  - rewrite for_enumerate_cons in Hrun.
    apply bind_Ok in Hrun as (s1 & Hstep & Hrun).
    specialize (IH _ _ _ Hrun). apply Hwrites in Hstep. intros name.
    destruct (IH name) as [(Hok & Hin & Htv) | (Hnot & Hsame)].
    { left. split; [done|]. split; [by right | done]. }
    destruct (decide (name = value)) as [->|Hne].
    + destruct Hstep as [(Hok & s & idx & Hs1) | (Hnok & Hs1)].
      * left. split; [done|]. split; [left|].
        unfold table_vertex. by rewrite Hsame, Hs1, lookup_insert_eq.
      * right. split; [by intros [? _]|]. by rewrite Hsame, Hs1.
    + right. split.
      * intros (Hok & [?|Hin]%elem_of_cons); [done|]. by apply Hnot.
      * rewrite Hsame.
        destruct Hstep as [(_ & s & idx & ->) | (_ & ->)]; [|done].
        by rewrite lookup_insert_ne.
Qed.

Lemma gp_slot_step_writes slots io_info nid i value st st' :
  gp_slot_step slots io_info nid i value st = Ok st' →
  (is_Some (io_info !! value) ∧
   ∃ s idx, st'.1.2 = <[value := (nid, s, idx)]> st.1.2) ∨
  (¬ is_Some (io_info !! value) ∧ st'.1.2 = st.1.2).
Proof.
  destruct st as [[vi x2x] named]. unfold gp_slot_step.
  destruct (io_info !! value) as [d|] eqn:Hd.
  - intros Hrun. apply bind_Ok in Hrun as ([[name idx] vi'] & _ & [= <-]).
    left. split; [by eexists | by eexists _, _].
  - intros [= <-]. right. split; [by intros [? [=]] | done].
Qed.

Lemma gp_raw_step_writes io_info nid i value st st' :
  gp_raw_step io_info nid i value st = Ok st' →
  (is_Some (io_info !! value) ∧
   ∃ s idx, st'.1 = <[value := (nid, s, idx)]> st.1) ∨
  (¬ is_Some (io_info !! value) ∧ st'.1 = st.1).
Proof.
  destruct st as [x2x named]. unfold gp_raw_step.
  destruct (io_info !! value) as [d|] eqn:Hd.
  - intros [= <-]. left. split; [by eexists | by eexists _, _].
  - intros [= <-]. right. split; [by intros [? [=]] | done].
Qed.

Lemma fp_slot_step_writes slots nid i value st st' :
  fp_slot_step slots nid i value st = Ok st' →
  (True ∧ ∃ s idx, st'.1.2 = <[value := (nid, s, idx)]> st.1.2) ∨
  (¬ True ∧ st'.1.2 = st.1.2).
Proof.
  destruct st as [[vi x2x] named]. unfold fp_slot_step.
  intros Hrun. apply bind_Ok in Hrun as ([[name idx] vi'] & _ & [= <-]).
  left. split; [done | by eexists _, _].
Qed.

Lemma fp_raw_step_writes nid i value st st' :
  fp_raw_step nid i value st = Ok st' →
  (True ∧ ∃ s idx, st'.1 = <[value := (nid, s, idx)]> st.1) ∨
  (¬ True ∧ st'.1 = st.1).
Proof.
  destruct st as [x2x named]. unfold fp_raw_step.
  intros [= <-]. left. split; [done | by eexists _, _].
Qed.

Lemma level_at_empty features ok nodes : level_at features ok nodes 0 empty_Level.
Proof.
  unfold level_at. rewrite take_0. cbn.
  split; [done|]. split; [done|]. split; [|split; apply table_of_nil].
  split; [|split].
  - intros nid. rewrite lookup_empty. split; [by intros [? [=]]|].
    intros (i & Hi & _). cbn [length] in Hi. lia.
  - intros nid. by rewrite !lookup_empty.
  - by intros i node [=].
Qed.

(** The end of the loop body keeps the invariant. *)
Lemma store_node_level features ok nodes (k : nat) node lv node' deep i2x o2x :
  nodes !! k = Some node →
  level_at features ok nodes k lv →
  operator_type node' = node_op_type node →
  operator_domain node' = node_domain node →
  table_step ok (pretty k) (node_input node) (lv_i2x lv) i2x →
  table_step ok (pretty k) (node_output node) (lv_o2x lv) o2x →
  level_at features ok nodes (S k)
    (store_node features (pretty k) (node', deep, i2x, o2x) lv).
Proof.
  intros Hk (Hsize & Hadj & (Hids & Hvert & Hrec) & Hi & Ho) Htype Hdom Hti Hto.
  pose proof (lookup_lt_Some _ _ _ Hk) as Hlt.
  assert (length (take k nodes) = k) as Hlen by (rewrite length_take; lia).
  unfold level_at. rewrite (take_S_r _ _ _ Hk).
  cbn [store_node lv_size lv_graph lv_nodes lv_i2x lv_o2x add_node g_adj g_node].
  split; [by rewrite Hsize|]. split; [done|]. split; [|split].
  - split; [|split].
    + intros nid. rewrite length_app, Hlen. cbn [length].
      destruct (decide (nid = pretty k)) as [->|Hne].
      * rewrite lookup_insert_eq. split; [|by eexists].
        intros _. exists k. split; [lia|done].
      * rewrite lookup_insert_ne by done. rewrite Hids, Hlen. split.
        -- intros (i & Hlti & ->). exists i. split; [lia|done].
        -- intros (i & Hlti & ->). exists i. split; [|done].
           destruct (decide (i = k)) as [->|?]; [done|lia].
    + intros nid. destruct (decide (nid = pretty k)) as [->|Hne].
      * by rewrite !lookup_insert_eq.
      * by rewrite !lookup_insert_ne.
    + intros i p Hlook. destruct (decide (i = k)) as [->|Hne].
      * rewrite lookup_app_r, Hlen, Nat.sub_diag in Hlook by lia.
        injection Hlook as <-. exists node'. by rewrite lookup_insert_eq.
      * pose proof (lookup_lt_Some _ _ _ Hlook) as Hlti.
        rewrite length_app, Hlen in Hlti. cbn [length] in Hlti.
        rewrite lookup_app_l in Hlook by lia.
        destruct (Hrec i p Hlook) as (record & Hr & Ht & Hd).
        exists record. split; [|done]. rewrite lookup_insert_ne; [done|].
        intros Heq. by apply (inj pretty) in Heq.
  - apply table_of_snoc with (x2x := lv_i2x lv); [done|]. by rewrite Hlen.
  - apply table_of_snoc with (x2x := lv_o2x lv); [done|]. by rewrite Hlen.
Qed.

Lemma gp_node_step_level get_schema identifier features rec_gp fp_networks
    deep_extract pm_info io_info nodes (k : nat) node lv lv' :
  nodes !! k = Some node →
  level_at features (λ name, is_Some (io_info !! name)) nodes k lv →
  gp_node_step get_schema identifier features rec_gp fp_networks deep_extract
    pm_info io_info k node lv = Ok lv' →
  level_at features (λ name, is_Some (io_info !! name)) nodes (S k) lv'.
Proof.
  intros Hk Hlv Hstep. unfold gp_node_step in Hstep.
  apply bind_Ok in Hstep as ([[[node' deep] i2x] o2x] & Hr & [= <-]).
  destruct (bool_decide (node_domain node ∈ ONNXOperatorDomain)).
  - unfold gp_builtin_node in Hr.
    apply bind_Ok in Hr as (operator & _ & Hr).
    apply bind_Ok in Hr as ([attrs deep1] & _ & Hr).
    apply bind_Ok in Hr as ([? ?] & _ & Hr).
    apply bind_Ok in Hr as ([[? i2x1] ?] & Hin & Hr).
    apply bind_Ok in Hr as ([[? o2x1] ?] & Hout & [= <- <- <- <-]).
    apply (slot_loop_table (λ st, st.1.2) (λ name, is_Some (io_info !! name))
             (pretty k)) in Hin; [|apply gp_slot_step_writes].
    apply (slot_loop_table (λ st, st.1.2) (λ name, is_Some (io_info !! name))
             (pretty k)) in Hout; [|apply gp_slot_step_writes].
    by apply (store_node_level _ _ _ _ node).
  - unfold gp_function_node in Hr.
    apply bind_Ok in Hr as (attrs & _ & Hr).
    apply bind_Ok in Hr as ([i2x1 ?] & Hin & Hr).
    apply bind_Ok in Hr as ([o2x1 ?] & Hout & [= <- <- <- <-]).
    apply (slot_loop_table (λ st, st.1) (λ name, is_Some (io_info !! name))
             (pretty k)) in Hin; [|apply gp_raw_step_writes].
    apply (slot_loop_table (λ st, st.1) (λ name, is_Some (io_info !! name))
             (pretty k)) in Hout; [|apply gp_raw_step_writes].
    by apply (store_node_level _ _ _ _ node).
Qed.

Lemma fp_node_step_level get_schema identifier features rec_gp rec_fp fp_networks
    deep_extract nodes (k : nat) node lv lv' :
  nodes !! k = Some node →
  level_at features (λ _, True) nodes k lv →
  fp_node_step get_schema identifier features rec_gp rec_fp fp_networks
    deep_extract k node lv = Ok lv' →
  level_at features (λ _, True) nodes (S k) lv'.
Proof.
  intros Hk Hlv Hstep. unfold fp_node_step in Hstep.
  apply bind_Ok in Hstep as ([[[node' deep] i2x] o2x] & Hr & [= <-]).
  destruct (bool_decide (node_domain node ∈ ONNXOperatorDomain)).
  - unfold fp_builtin_node in Hr.
    apply bind_Ok in Hr as (operator & _ & Hr).
    apply bind_Ok in Hr as ([attrs deep1] & _ & Hr).
    apply bind_Ok in Hr as ([[? i2x1] ?] & Hin & Hr).
    apply bind_Ok in Hr as ([[? o2x1] ?] & Hout & [= <- <- <- <-]).
    apply (slot_loop_table (λ st, st.1.2) (λ _, True) (pretty k)) in Hin;
      [|apply fp_slot_step_writes].
    apply (slot_loop_table (λ st, st.1.2) (λ _, True) (pretty k)) in Hout;
      [|apply fp_slot_step_writes].
    by apply (store_node_level _ _ _ _ node).
  - unfold fp_function_node in Hr.
    apply bind_Ok in Hr as ([attrs deep1] & _ & Hr).
    apply bind_Ok in Hr as ([i2x1 ?] & Hin & Hr).
    apply bind_Ok in Hr as ([o2x1 ?] & Hout & [= <- <- <- <-]).
    apply (slot_loop_table (λ st, st.1) (λ _, True) (pretty k)) in Hin;
      [|apply fp_raw_step_writes].
    apply (slot_loop_table (λ st, st.1) (λ _, True) (pretty k)) in Hout;
      [|apply fp_raw_step_writes].
    by apply (store_node_level _ _ _ _ node).
Qed.

(** The loop over the nodes, from the empty level. *)
Lemma first_pass_level features ok
    (step : nat → NodeProto → Level → Result Level) nodes :
  (∀ (k : nat) node lv lv', nodes !! k = Some node →
     level_at features ok nodes k lv → step k node lv = Ok lv' →
     level_at features ok nodes (S k) lv') →
  ∀ lv, for_enumerate step 0 nodes empty_Level = Ok lv →
  level_at features ok nodes (length nodes) lv.
Proof.
  intros Hstep.
  assert (∀ l2 l1 lv0 lv, nodes = l1 ++ l2 →
            level_at features ok nodes (length l1) lv0 →
            for_enumerate step (length l1) l2 lv0 = Ok lv →
            level_at features ok nodes (length nodes) lv) as Hgen.
  { induction l2 as [|x l2 IH]; intros l1 lv0 lv Hsplit Hinv Hrun.
    - injection Hrun as <-.
      assert (l1 = nodes) as -> by (by rewrite Hsplit, app_nil_r). done.
    - rewrite for_enumerate_cons in Hrun.
      apply bind_Ok in Hrun as (lv1 & H1 & Hrun).
      apply (IH (l1 ++ [x]) lv1 lv).
      + by rewrite <- (assoc_L (++)).
      + rewrite length_app. cbn [length]. rewrite Nat.add_1_r.
        eapply Hstep; [|done|done]. rewrite Hsplit. by apply list_lookup_middle.
      + by rewrite length_app, Nat.add_1_r. }
  intros lv Hrun. apply (Hgen nodes [] empty_Level lv); [done| |done].
  apply level_at_empty.
Qed.

(** The second pass: which edges it adds, and that it adds no vertex. *)
Lemma edge_add_edge a b attr G u v :
  edge (add_edge a b attr G) u v ↔ (a = u ∧ b = v) ∨ edge G u v.
Proof.
  unfold edge, add_edge; cbn [g_adj].
  destruct (decide ((a, b) = (u, v))) as [[= -> ->]|Hne].
  - rewrite lookup_insert_eq. split; [by left | by eexists].
  - rewrite lookup_insert_ne by done. split; [by right|].
    intros [[-> ->]|?]; done.
Qed.

Lemma connect_edge i2x o2x G name u v :
  edge (connect i2x o2x G name) u v ↔
  edge G u v ∨
  (table_vertex i2x name = Some v ∧ table_vertex o2x name = Some u).
Proof.
  unfold connect, table_vertex.
  destruct (i2x !! name) as [[[vn vs] vi]|]; cbn; [|naive_solver].
  destruct (o2x !! name) as [[[un us] ui]|]; cbn; [|naive_solver].
  rewrite edge_add_edge. naive_solver.
Qed.

Lemma connect_names_edge i2x o2x names u v : ∀ G,
  edge (foldl (connect i2x o2x) G names) u v ↔
  edge G u v ∨
  ∃ name, name ∈ names ∧
    table_vertex i2x name = Some v ∧ table_vertex o2x name = Some u.
Proof.
  induction names as [|x names IH]; intros G; cbn [foldl].
  - split; [by left|]. intros [?|(name & Hin & _)]; [done|].
    by apply elem_of_nil in Hin.
  - rewrite IH, connect_edge. split.
    + intros [[?|[? ?]]|(name & Hin & ? & ?)]; [by left| |].
      * right. exists x. split; [left | done].
      * right. exists name. split; [by right | done].
    + intros [?|(name & Hin & ? & ?)]; [by left; left|].
      apply elem_of_cons in Hin as [->|Hin]; [left; by right|].
      right. by exists name.
Qed.

Lemma connect_all_edge i2x o2x nodes u v : ∀ G,
  edge (connect_all i2x o2x nodes G) u v ↔
  edge G u v ∨
  ∃ node name, node ∈ nodes ∧ name ∈ node_input node ++ node_output node ∧
    table_vertex i2x name = Some v ∧ table_vertex o2x name = Some u.
Proof.
  unfold connect_all.
  induction nodes as [|x nodes IH]; intros G; cbn [foldl].
  - split; [by left|]. intros [?|(node & name & Hin & _)]; [done|].
    by apply elem_of_nil in Hin.
  - rewrite IH. unfold connect_node. rewrite <- foldl_app, connect_names_edge.
    split.
    + intros [[?|(name & Hin & ? & ?)]|(node & name & Hn & ? & ? & ?)];
        [by left| |].
      * right. exists x, name. split; [left | done].
      * right. exists node, name. split; [by right | done].
    + intros [?|(node & name & Hn & ? & ? & ?)]; [by left; left|].
      apply elem_of_cons in Hn as [->|Hn].
      * left. right. by exists name.
      * right. by exists node, name.
Qed.

Lemma touch_node_present n nodes :
  is_Some (nodes !! n) → touch_node n nodes = nodes.
Proof. intros [a Ha]. unfold touch_node. by rewrite Ha. Qed.

Lemma connect_all_vertices i2x o2x nodes (V : gmap string json) :
  (∀ name v, table_vertex i2x name = Some v → is_Some (V !! v)) →
  (∀ name u, table_vertex o2x name = Some u → is_Some (V !! u)) →
  ∀ G, g_node G = V → g_node (connect_all i2x o2x nodes G) = V.
Proof.
  intros Hi Ho.
  assert (∀ G name, g_node G = V → g_node (connect i2x o2x G name) = V) as Hone.
  { intros G name HG. unfold connect.
    destruct (i2x !! name) as [[[vn vs] vi]|] eqn:Hin; [|done].
    destruct (o2x !! name) as [[[un us] ui]|] eqn:Hout; [|done].
    cbn [add_edge g_node]. rewrite HG.
    rewrite (touch_node_present un)
      by (apply (Ho name); unfold table_vertex; by rewrite Hout).
    rewrite (touch_node_present vn)
      by (apply (Hi name); unfold table_vertex; by rewrite Hin).
    done. }
  assert (∀ names G, g_node G = V → g_node (foldl (connect i2x o2x) G names) = V)
    as Hnames.
  { induction names as [|x names IH]; intros G HG; cbn [foldl]; [done|].
    by apply IH, Hone. }
  unfold connect_all.
  induction nodes as [|x nodes IH]; intros G HG; cbn [foldl]; [done|].
  apply IH. unfold connect_node. by do 2 apply Hnames.
Qed.

(** What a level that has gone through all its nodes turns into. *)
Lemma finish_level_at features ok nodes lv sub fnc n deep :
  level_at features ok nodes (length nodes) lv →
  finish_level nodes lv sub fnc = Ok (n, deep) →
  nn_size n = length nodes ∧
  records_of features nodes (nn_nodes n) (g_node (nn_graph n)) ∧
  ∀ u v, edge (nn_graph n) u v ↔ links ok nodes u v.
Proof.
  intros (Hsize & Hadj & Hrec & Hi & Ho) Hfin. rewrite firstn_all in Hrec, Hi, Ho.
  apply finish_level_Ok in Hfin as (Hg & _ & Hnodes & Hsz & _).
  rewrite Hg, Hnodes, Hsz. split; [done|]. unfold assembled_graph.
  assert (∀ proj x2x, table_of ok proj nodes x2x →
            ∀ name v, table_vertex x2x name = Some v →
                      is_Some (g_node (lv_graph lv) !! v)) as Hpresent.
  { intros proj x2x Htab name v Hv. apply Htab in Hv as [_ Hv].
    apply fmap_Some in Hv as (k & Hk & ->).
    apply last_user_Some in Hk as (node & Hk & _).
    destruct Hrec as (Hids & Hvert & _). rewrite Hvert, fmap_is_Some.
    apply Hids. exists k. split; [by eapply lookup_lt_Some | done]. }
  split.
  - by rewrite (connect_all_vertices _ _ _ (g_node (lv_graph lv)))
      by eauto.
  - intros u v. rewrite connect_all_edge. split.
    + intros [[a Ha]|(node & name & _ & _ & Hv & Hu)];
        [by rewrite Hadj, lookup_empty in Ha|].
      apply Hi in Hv as [Hok Hv]. apply Ho in Hu as [_ Hu].
      apply fmap_Some in Hv as (k & Hk & ->).
      apply fmap_Some in Hu as (j & Hj & ->).
      by exists name, j, k.
    + intros (name & j & k & Hok & Hj & Hk & -> & ->). right.
      destruct (last_user_Some _ _ _ _ Hk) as (node & Hnode & Hin).
      exists node, name. split; [by eapply list_elem_of_lookup_2|].
      split; [apply elem_of_app; by left|]. split.
      * apply Hi. by rewrite Hk.
      * apply Ho. by rewrite Hj.
Qed.

Lemma gp_first_pass_level get_schema identifier features rec_gp gp fp_networks
    deep_extract lv :
  gp_first_pass get_schema identifier features rec_gp gp fp_networks deep_extract
    = Ok lv →
  level_at features (λ name, is_Some (io_info_of gp !! name)) (gp_node gp)
    (length (gp_node gp)) lv.
Proof.
  intros Hpass. unfold gp_first_pass in Hpass.
  apply bind_Ok in Hpass as (pm_info & _ & Hloop).
  revert Hloop. apply first_pass_level.
  intros k node lv0 lv1. apply gp_node_step_level.
Qed.

Lemma fp_first_pass_level get_schema identifier features rec_gp rec_fp fp
    fp_networks deep_extract lv :
  fp_first_pass get_schema identifier features rec_gp rec_fp fp fp_networks
    deep_extract = Ok lv →
  level_at features (λ _, True) (fn_node fp) (length (fn_node fp)) lv.
Proof.
  unfold fp_first_pass. apply first_pass_level.
  intros k node lv0 lv1. apply fp_node_step_level.
Qed.

(** X7. A Network that [extract_from_gp] or [extract_from_fp] returns has
    as its size the number of nodes of the graph or of the function body;
    it has one record and one vertex per node, under the decimal strings
    of the positions 0, 1, ... and under no other key; the record of a
    position keeps the type and the domain of the node there, and the
    vertex carries the features of that record. *)
Theorem network_has_one_record_per_node get_schema identifier features :
  (∀ fuel gp fp_networks deep_extract sub n deeps,
     extract_from_gp get_schema identifier features fuel gp fp_networks
       deep_extract sub = Ok (n, deeps) →
     nn_size n = length (gp_node gp) ∧
     records_of features (gp_node gp) (nn_nodes n) (g_node (nn_graph n))) ∧
  (∀ fuel fp fp_networks deep_extract sub n deeps,
     extract_from_fp get_schema identifier features fuel fp fp_networks
       deep_extract sub = Ok (n, deeps) →
     nn_size n = length (fn_node fp) ∧
     records_of features (fn_node fp) (nn_nodes n) (g_node (nn_graph n))).
Proof.
  split.
  - intros fuel gp reg deep sub n deeps Hrun. destruct fuel as [|fuel]; [done|].
    simpl in Hrun. unfold extract_from_gp_body in Hrun.
    apply bind_Ok in Hrun as (lv & Hpass & Hfin).
    apply gp_first_pass_level in Hpass.
    by destruct (finish_level_at _ _ _ _ _ _ _ _ Hpass Hfin) as (? & ? & _).
  - intros fuel fp reg deep sub n deeps Hrun. destruct fuel as [|fuel]; [done|].
    simpl in Hrun. unfold extract_from_fp_body in Hrun.
    apply bind_Ok in Hrun as (lv & Hpass & Hfin).
    apply fp_first_pass_level in Hpass.
    by destruct (finish_level_at _ _ _ _ _ _ _ _ Hpass Hfin) as (? & ? & _).
Qed.

Lemma network_has_one_record_per_node_witness :
  ∃ n deeps,
    sample_gp 1 fan_out_graph ∅ false false = Ok (n, deeps) ∧
    nn_size n = length (gp_node fan_out_graph) ∧
    records_of sample_features (gp_node fan_out_graph) (nn_nodes n)
      (g_node (nn_graph n)).
Proof.
  eexists _, _. split; [vm_compute; reflexivity|].
  eapply (proj1 (network_has_one_record_per_node sample_get_schema
                   sample_identifier sample_features)
            1%nat fan_out_graph ∅ false false).
  vm_compute. reflexivity.
Defined.

(** X8. The edges of a returned Network, exactly. In a graph there is an
    edge from [u] to [v] if and only if some annotated value name has the
    last node that lists it as an output at [u] and the last node that
    lists it as an input at [v]; in a function body the same holds of
    every value name, annotated or not. *)
Theorem edges_join_last_producer_and_consumer get_schema identifier features :
  (∀ fuel gp fp_networks deep_extract sub n deeps,
     extract_from_gp get_schema identifier features fuel gp fp_networks
       deep_extract sub = Ok (n, deeps) →
     ∀ u v, edge (nn_graph n) u v ↔
            links (λ name, is_Some (io_info_of gp !! name)) (gp_node gp) u v) ∧
  (∀ fuel fp fp_networks deep_extract sub n deeps,
     extract_from_fp get_schema identifier features fuel fp fp_networks
       deep_extract sub = Ok (n, deeps) →
     ∀ u v, edge (nn_graph n) u v ↔ links (λ _, True) (fn_node fp) u v).
Proof.
  split.
  - intros fuel gp reg deep sub n deeps Hrun. destruct fuel as [|fuel]; [done|].
    simpl in Hrun. unfold extract_from_gp_body in Hrun.
    apply bind_Ok in Hrun as (lv & Hpass & Hfin).
    apply gp_first_pass_level in Hpass.
    by destruct (finish_level_at _ _ _ _ _ _ _ _ Hpass Hfin) as (_ & _ & ?).
  - intros fuel fp reg deep sub n deeps Hrun. destruct fuel as [|fuel]; [done|].
    simpl in Hrun. unfold extract_from_fp_body in Hrun.
    apply bind_Ok in Hrun as (lv & Hpass & Hfin).
    apply fp_first_pass_level in Hpass.
    by destruct (finish_level_at _ _ _ _ _ _ _ _ Hpass Hfin) as (_ & _ & ?).
Qed.

Lemma edges_join_last_producer_and_consumer_witness :
  ∃ n deeps,
    sample_gp 1 fan_out_graph ∅ false false = Ok (n, deeps) ∧
    ∀ u v, edge (nn_graph n) u v ↔
           links (λ name, is_Some (io_info_of fan_out_graph !! name))
             (gp_node fan_out_graph) u v.
Proof.
  eexists _, _. split; [vm_compute; reflexivity|].
  eapply (proj1 (edges_join_last_producer_and_consumer sample_get_schema
                   sample_identifier sample_features)
            1%nat fan_out_graph ∅ false false).
  vm_compute. reflexivity.
Defined.
